(** * Drone path viewer: the canvas of [main.py], embedded and verified

    The development follows [class ImageCanvas] and [MainWindow.start_play]
    of [main.py].  Python floats are IEEE binary64 numbers, so they are
    modelled by Rocq's primitive floats; Python integers are [Z]; the
    methods of the canvas are functions from the canvas record to an
    [Outcome] (the canvas afterwards, the frames emitted on [cropUpdated],
    and the exception that escaped, if any). *)

From Stdlib Require Import Floats.
From Stdlib Require Import ZArith QArith Qround Lia Bool.
From stdpp Require Import base list relations.

Local Open Scope Z_scope.

(** ** Python's numeric built-ins *)

Module Py.

(** The exceptions the modelled code can raise. *)
Inductive exn : Set := OverflowError | ValueError | IndexError.

(** A Python expression either evaluates or raises. *)
Inductive Res (A : Type) : Type :=
| Ok (a : A)
| Raise (e : exn).
Arguments Ok {A} a.
Arguments Raise {A} e.

Definition bind {A B} (r : Res A) (k : A → Res B) : Res B :=
  match r with
  | Ok a => k a
  | Raise e => Raise e
  end.

(** The result is not an [IndexError]. *)
Definition no_index {A} (r : Res A) : Prop := r ≠ Raise IndexError.

(** The integer [(-1)^s * m] of a sign and a magnitude. *)
Definition signed (s : bool) (m : positive) : Z :=
  if s then Z.neg m else Z.pos m.

(** [int(f)]: truncation toward zero; infinities and NaN raise. *)
Definition py_int (f : float) : Res Z :=
  match Prim2SF f with
  | S754_zero _ => Ok 0
  | S754_infinity _ => Raise OverflowError
  | S754_nan => Raise ValueError
  | S754_finite s m e =>
      if 0 <=? e then Ok (signed s m * 2 ^ e)
      else Ok (Z.quot (signed s m) (2 ^ (- e)))
  end.

(** Nearest integer to [n / d] for [d > 0], a tie going to the even
    neighbour. *)
Definition round_half_even (n d : Z) : Z :=
  let q := n / d in
  let r := n mod d in
  match 2 * r ?= d with
  | Lt => q
  | Gt => q + 1
  | Eq => if Z.even q then q else q + 1
  end.

(** [round(f)] with one argument: Python 3 rounds to the nearest integer
    and a tie to the even one; infinities and NaN raise. *)
Definition py_round (f : float) : Res Z :=
  match Prim2SF f with
  | S754_zero _ => Ok 0
  | S754_infinity _ => Raise OverflowError
  | S754_nan => Raise ValueError
  | S754_finite s m e =>
      if 0 <=? e then Ok (signed s m * 2 ^ e)
      else Ok (round_half_even (signed s m) (2 ^ (- e)))
  end.

(** The double nearest to an integer (ties to even), as C and Python
    convert integers to floats. *)
Definition float_of_Z (n : Z) : float :=
  SF2Prim (binary_normalize prec emax n 0 false).

(** The implicit [int -> float] conversion of mixed arithmetic:
    Python raises when the integer is too large for a double. *)
Definition py_float (n : Z) : Res float :=
  match binary_normalize prec emax n 0 false with
  | S754_infinity _ => Raise OverflowError
  | sf => Ok (SF2Prim sf)
  end.

(** [max(a, b)] on floats: [b] replaces [a] only when [b > a]. *)
Definition py_max (a b : float) : float :=
  if (a <? b)%float then b else a.

(** [seq[i]] on a list: negative indices count from the end. *)
Definition py_getitem {A} (l : list A) (i : Z) : Res A :=
  let n := Z.of_nat (length l) in
  let j := if i <? 0 then i + n else i in
  if (0 <=? j) && (j <? n) then
    match l !! Z.to_nat j with
    | Some a => Ok a
    | None => Raise IndexError
    end
  else Raise IndexError.

(** [math.radians] and [math.degrees] multiply by a constant that C
    computes once in double precision. *)
Definition math_pi : float := 0x1.921fb54442d18p+1%float.
Definition radians (x : float) : float := (x * (math_pi / 180))%float.
Definition degrees (x : float) : float := (x * (180 / math_pi))%float.

(** The exact value of a finite double, as a rational. *)
Definition float_value (f : float) : option Q :=
  match Prim2SF f with
  | S754_zero _ => Some 0%Q
  | S754_finite s m e =>
      if 0 <=? e then Some (inject_Z (signed s m * 2 ^ e))
      else Some (signed s m # Z.to_pos (2 ^ (- e)))
  | _ => None
  end.

(** Truncation of a rational toward zero. *)
Definition Qtrunc (v : Q) : Z := Z.quot (Qnum v) (Z.pos (Qden v)).

(** [f] is exactly [k + 1/2]: its fractional part is one half. *)
Definition is_half (f : float) (k : Z) : Prop :=
  ∃ v, float_value f = Some v ∧ (v == inject_Z k + (1 # 2))%Q.

Definition is_pos_infinity (f : float) : Prop :=
  Prim2SF f = S754_infinity false.

(** The tie-breaking rules for [k + 1/2]: Python's picks the even
    neighbour, rounding half away from zero the one of larger
    magnitude. *)
Definition half_to_even (k : Z) : Z := if Z.even k then k else k + 1.
Definition half_away (k : Z) : Z := if 0 <=? k then k + 1 else k.

End Py.

Import Py.

Notation "'let*' x ':=' r 'in' k" := (bind r (fun x => k))
  (at level 10, x pattern, r at level 100, k at level 200, only parsing).

(** A [for] loop over a list, threading the loop's variables and stopping
    at the first exception. *)
Fixpoint for_each {A S} (l : list A) (body : A → S → Res S) (s : S) : Res S :=
  match l with
  | [] => Ok s
  | i :: rest => let* s' := body i s in for_each rest body s'
  end.

(** [for i in range(n)]. *)
Definition for_range {S} (n : Z) (body : Z → S → Res S) (s : S) : Res S :=
  for_each (seqZ 0 n) body s.

(** ** The Qt values the canvas handles *)

(** [QPoint]: integer widget coordinates of a mouse event. *)
Record QPoint : Set := mkQPoint { qp_x : Z; qp_y : Z }.

(** [QPointF]: a point with double coordinates. *)
Record QPointF : Set := mkQPointF { pf_x : float; pf_y : float }.

(** [QPointF(pos)]. *)
Definition QPointF_of (p : QPoint) : QPointF :=
  mkQPointF (float_of_Z (qp_x p)) (float_of_Z (qp_y p)).

(** A pixel value, [QRgb]: 0xAARRGGBB. *)
Definition QRgb : Set := Z.

(** [QColor(0, 0, 0)] as a pixel: opaque black. *)
Definition black : QRgb := 0xFF000000.

(** [QImage]: a pixel buffer, row after row. *)
Record QImage : Set := mkQImage {
  img_width : Z;
  img_height : Z;
  img_data : list QRgb
}.

Definition valid (img : QImage) (x y : Z) : bool :=
  (0 <=? x) && (x <? img_width img) && (0 <=? y) && (y <? img_height img).

Definition offset (img : QImage) (x y : Z) : nat :=
  Z.to_nat (y * img_width img + x).

(** The pixel buffer of a [w] by [h] image Qt has built; its content is
    unspecified until [fill]. *)
Definition QImage_buffer (w h : Z) : QImage :=
  mkQImage w h (replicate (Z.to_nat (w * h)) 0).

(** The null image: no pixels, sizes 0. *)
Definition null_image : QImage := mkQImage 0 0 [].

(** What is decided on the Qt side of a call: whether the binding checks
    that a Python integer fits the C [int] it is passed as (without the
    check it keeps the low 32 bits), and whether Qt gets the memory for
    an image of a given size. *)
Record QtEnv : Type := mkQtEnv {
  overflow_checking : bool;
  allocates : Z → Z → bool
}.

Definition in_c_int (n : Z) : bool := (- 2 ^ 31 <=? n) && (n <? 2 ^ 31).

Definition in_c_long_long (n : Z) : bool :=
  (- 2 ^ 63 <=? n) && (n <? 2 ^ 63).

(** The low 32 bits of an integer, read as a signed C [int]. *)
Definition wrap_c_int (n : Z) : Z := (n + 2 ^ 31) mod 2 ^ 32 - 2 ^ 31.

(** A Python integer passed where Qt takes a C [int]: itself when it
    fits; [OverflowError] when it does not even fit a C [long long], or
    when the binding checks for overflow; its low 32 bits otherwise. *)
Definition to_c_int (qt : QtEnv) (n : Z) : Res Z :=
  if in_c_int n then Ok n
  else if in_c_long_long n && negb (overflow_checking qt)
       then Ok (wrap_c_int n)
       else Raise OverflowError.

(** Qt builds a [w] by [h] image: both sizes are positive C [int]s and
    the memory is there. *)
Definition builds (qt : QtEnv) (w h : Z) : bool :=
  in_c_int w && in_c_int h && ((0 <? w) && (0 <? h)) && allocates qt w h.

(** [QImage(w, h, Format_ARGB32)]: the sizes are passed as C [int]s; the
    image is null when a size is not positive or the memory is not
    there. *)
Definition QImage_new (qt : QtEnv) (w h : Z) : Res QImage :=
  let* cw := to_c_int qt w in
  let* ch := to_c_int qt h in
  if (0 <? cw) && (0 <? ch) && allocates qt cw ch
  then Ok (QImage_buffer cw ch)
  else Ok null_image.

(** [img.fill(color)]. *)
Definition fill (img : QImage) (v : QRgb) : QImage :=
  mkQImage (img_width img) (img_height img)
           (replicate (length (img_data img)) v).

(** [img.pixel(x, y)]; Qt answers 12345 outside the image. *)
Definition pixel (img : QImage) (x y : Z) : QRgb :=
  if valid img x y then default 0 (img_data img !! offset img x y)
  else 12345.

(** [img.setPixel(x, y, v)]; Qt ignores a coordinate outside the image. *)
Definition setPixel (img : QImage) (x y : Z) (v : QRgb) : QImage :=
  if valid img x y then
    mkQImage (img_width img) (img_height img)
             (<[offset img x y := v]> (img_data img))
  else img.

(** [img.setPixel(x, y, v)] called from Python: the coordinates are
    passed as C [int]s.  ([img.pixel(ix, iy)] is only called with an
    index inside the raster, whose own sizes are C [int]s.) *)
Definition setPixel_at (qt : QtEnv) (img : QImage) (x y : Z) (v : QRgb)
  : Res QImage :=
  let* cx := to_c_int qt x in
  let* cy := to_c_int qt y in
  Ok (setPixel img cx cy v).

(** [QPixmap]: an image held for display. *)
Record QPixmap : Set := fromImage { toImage : QImage }.

Definition pm_width (pm : QPixmap) : Z := img_width (toImage pm).
Definition pm_height (pm : QPixmap) : Z := img_height (toImage pm).

(** [pixmap.isNull()]: a pixmap without pixels. *)
Definition isNull (pm : QPixmap) : bool :=
  (pm_width pm <=? 0) || (pm_height pm <=? 0).

Inductive MouseButton : Set :=
  NoButton | LeftButton | RightButton | MidButton.

Definition is_left (b : MouseButton) : bool :=
  match b with LeftButton => true | _ => false end.

Record QMouseEvent : Set := mkMouseEvent {
  button : MouseButton;
  pos : QPoint
}.

(** ** The canvas: the attributes of [ImageCanvas] *)

Record Canvas : Set := mkCanvas {
  image : option QPixmap;        (* None is Python's None *)
  image_qimage : option QImage;
  path_points : list QPointF;
  drawing : bool;
  drone_index : Z;
  playing : bool;
  rect_width_px : float;
  rect_height_px : float;
  timer : option Z               (* Some ms: the QTimer runs with that interval *)
}.

(** [ImageCanvas.__init__]. *)
Definition init : Canvas :=
  mkCanvas None None [] false 0 false 80 80 None.

Definition set_drawing (b : bool) (c : Canvas) : Canvas :=
  mkCanvas (image c) (image_qimage c) (path_points c) b (drone_index c)
           (playing c) (rect_width_px c) (rect_height_px c) (timer c).

Definition set_drone_index (i : Z) (c : Canvas) : Canvas :=
  mkCanvas (image c) (image_qimage c) (path_points c) (drawing c) i
           (playing c) (rect_width_px c) (rect_height_px c) (timer c).

Definition set_playing (b : bool) (c : Canvas) : Canvas :=
  mkCanvas (image c) (image_qimage c) (path_points c) (drawing c)
           (drone_index c) b (rect_width_px c) (rect_height_px c) (timer c).

Definition set_path_points (l : list QPointF) (c : Canvas) : Canvas :=
  mkCanvas (image c) (image_qimage c) l (drawing c) (drone_index c)
           (playing c) (rect_width_px c) (rect_height_px c) (timer c).

Definition set_timer (t : option Z) (c : Canvas) : Canvas :=
  mkCanvas (image c) (image_qimage c) (path_points c) (drawing c)
           (drone_index c) (playing c) (rect_width_px c) (rect_height_px c) t.

Definition set_rect (w h : float) (c : Canvas) : Canvas :=
  mkCanvas (image c) (image_qimage c) (path_points c) (drawing c)
           (drone_index c) (playing c) w h (timer c).

(** What a method call leaves behind: the canvas, the pixmaps emitted on
    [cropUpdated] in order, and the exception that escaped the call. *)
Record Outcome : Set := mkOutcome {
  after : Canvas;
  emitted : list QPixmap;
  raised : option exn
}.

Definition returned (c : Canvas) : Outcome := mkOutcome c [] None.

(** [len(self.path_points)]. *)
Definition path_len (c : Canvas) : Z := Z.of_nat (length (path_points c)).

(** The index clamp of [paintEvent] and [_emit_crop]:
    [max(0, min(self.drone_index, len(self.path_points) - 1))]. *)
Definition clamp_index (c : Canvas) : Z :=
  Z.max 0 (Z.min (drone_index c) (path_len c - 1)).

(** ** The methods of [ImageCanvas] *)

Section Methods.

(** The C library's [atan2], [cos] and [sin], behind [math.atan2],
    [math.cos] and [math.sin].  Python turns a NaN result at a non-NaN
    argument into [ValueError]; [atan2] has no such argument, and [cos]
    and [sin] only the infinities, which a heading never is: it is
    [radians(degrees(atan2 ...))], a NaN or at most 180 degrees. *)
Variable atan2 : float → float → float.
Variables cos sin : float → float.

(** The Qt side of [QImage(w, h, ...)] and [setPixel]. *)
Variable qt : QtEnv.

Definition hasImage (c : Canvas) : bool :=
  match image c with Some _ => true | None => false end.

Definition hasPath (c : Canvas) : bool := 1 <? path_len c.

(** [setImage]; [setFixedSize] and [update] only reach the widget's
    geometry and repaint queue, which are not part of the canvas. *)
Definition setImage (pixmap : QPixmap) (c : Canvas) : Canvas :=
  mkCanvas (Some pixmap)
           (if negb (isNull pixmap) then Some (toImage pixmap) else None)
           [] false 0 false
           (rect_width_px c) (rect_height_px c) (timer c).

Definition setRectangleSizePixels (w_px h_px : float) (c : Canvas) : Canvas :=
  set_rect (py_max 4 w_px) (py_max 4 h_px) c.

(** The tail of [_heading_angle_deg], once the segment is chosen. *)
Definition segment_heading (p1 p2 : QPointF) : float :=
  let dx := (pf_x p2 - pf_x p1)%float in
  let dy := (pf_y p2 - pf_y p1)%float in
  if (dx =? 0)%float && (dy =? 0)%float then 0%float
  else degrees (atan2 dy dx).

Definition heading_angle_deg (c : Canvas) (idx : Z) : Res float :=
  if path_len c <? 2 then Ok 0%float
  else
    let* (p1, p2) :=
      if idx <? path_len c - 1 then
        let* p1 := py_getitem (path_points c) idx in
        let* p2 := py_getitem (path_points c) (idx + 1) in
        Ok (p1, p2)
      else
        let* p1 := py_getitem (path_points c) (idx - 1) in
        let* p2 := py_getitem (path_points c) idx in
        Ok (p1, p2) in
    Ok (segment_heading p1 p2).

(** The expression [i - n / 2.0] of two integers ([lx] and [ly]). *)
Definition local_offset (i n : Z) : Res float :=
  let* nf := py_float n in
  let* xf := py_float i in
  Ok (xf - nf / 2)%float.

(** Local to image coordinates, rounded:
    the four assignments [gx], [gy], [ix], [iy]. *)
Definition world_index (center : QPointF) (cos_t sin_t lx ly : float)
  : Res (Z * Z) :=
  let gx := (pf_x center + cos_t * lx - sin_t * ly)%float in
  let gy := (pf_y center + sin_t * lx + cos_t * ly)%float in
  let* ix := py_round gx in
  let* iy := py_round gy in
  Ok (ix, iy).

(** The body of the loop over [x]. *)
Definition crop_pixel (src : QImage) (center : QPointF)
    (cos_t sin_t : float) (w : Z) (y : Z) (ly : float)
    (x : Z) (result : QImage) : Res QImage :=
  let* lx := local_offset x w in
  let* (ix, iy) := world_index center cos_t sin_t lx ly in
  if (0 <=? ix) && (ix <? img_width src)
     && ((0 <=? iy) && (iy <? img_height src))
  then setPixel_at qt result x y (pixel src ix iy)
  else Ok result.

(** The body of the loop over [y]. *)
Definition crop_row (src : QImage) (center : QPointF)
    (cos_t sin_t : float) (w h : Z) (y : Z) (result : QImage)
  : Res QImage :=
  let* ly := local_offset y h in
  for_range w (crop_pixel src center cos_t sin_t w y ly) result.

(** [_emit_crop], up to the signal: nothing ([None]) on an early
    return, the pixmap otherwise. *)
Definition crop (c : Canvas) : Res (option QPixmap) :=
  if negb (hasImage c) || negb (hasPath c) then Ok None
  else match image_qimage c with
  | None => Ok None
  | Some src =>
      let idx := clamp_index c in
      let* center := py_getitem (path_points c) idx in
      let* angle_deg := heading_angle_deg c idx in
      let angle_rad := radians angle_deg in
      let cos_t := cos angle_rad in
      let sin_t := sin angle_rad in
      let* w := py_int (rect_width_px c) in
      let* h := py_int (rect_height_px c) in
      if (w <? 2) || (h <? 2) then Ok None
      else
        let* result := QImage_new qt w h in
        let result := fill result black in
        let* result :=
          for_range h (crop_row src center cos_t sin_t w h) result in
        Ok (Some (fromImage result))
  end.

(** [_emit_crop]: the method assigns no attribute, so the canvas is
    the one it was called on. *)
Definition emit_crop (c : Canvas) : Outcome :=
  match crop c with
  | Ok None => returned c
  | Ok (Some pix) => mkOutcome c [pix] None
  | Raise e => mkOutcome c [] (Some e)
  end.

Definition stopAnimation (c : Canvas) : Canvas :=
  set_playing false (set_timer None c).

Definition startAnimation (interval_ms : Z) (c : Canvas) : Outcome :=
  if negb (hasImage c) || negb (hasPath c) then returned c
  else
    let c1 := set_playing true (set_drone_index 0 c) in
    let o := emit_crop c1 in
    match raised o with
    | Some e => o
    | None =>
        mkOutcome (set_timer (Some (Z.max 1 interval_ms)) (after o))
                  (emitted o) None
    end.

Definition point_in_image (c : Canvas) (p : QPoint) : bool :=
  match image c with
  | None => false
  | Some pm =>
      (0 <=? qp_x p) && (qp_x p <? pm_width pm)
      && ((0 <=? qp_y p) && (qp_y p <? pm_height pm))
  end.

Definition mousePressEvent (event : QMouseEvent) (c : Canvas) : Canvas :=
  if negb (hasImage c) then c
  else if is_left (button event) then
    if point_in_image c (pos event) then
      set_timer None
        (set_playing false
           (set_drone_index 0
              (set_drawing true
                 (set_path_points [QPointF_of (pos event)] c))))
    else c
  else c.

Definition mouseMoveEvent (event : QMouseEvent) (c : Canvas) : Canvas :=
  if negb (drawing c) || negb (hasImage c) then c
  else if point_in_image c (pos event) then
    set_path_points (path_points c ++ [QPointF_of (pos event)]) c
  else c.

Definition mouseReleaseEvent (event : QMouseEvent) (c : Canvas) : Canvas :=
  if is_left (button event) then set_drawing false c else c.

Definition on_timer (c : Canvas) : Outcome :=
  if negb (hasPath c) then returned (stopAnimation c)
  else if drone_index c <? path_len c - 1 then
    emit_crop (set_drone_index (drone_index c + 1) c)
  else returned (stopAnimation c).

(** What [paintEvent] draws, in order. *)
Inductive PaintOp : Set :=
| DrawPixmap (pm : QPixmap)
| DrawPath (start : QPointF) (rest : list QPointF)
| DrawDroneAndRect (center : QPointF) (angle_deg : float)
                   (rect_w rect_h : float).

Definition paintEvent (c : Canvas) : Res (list PaintOp) :=
  let background :=
    match image c with Some pm => [DrawPixmap pm] | None => [] end in
  let* path :=
    if 1 <? path_len c then
      let* p0 := py_getitem (path_points c) 0 in
      Ok [DrawPath p0 (drop 1 (path_points c))]
    else Ok [] in
  let* drone :=
    if hasPath c then
      let idx := clamp_index c in
      let* drone_pos := py_getitem (path_points c) idx in
      let* angle_deg := heading_angle_deg c idx in
      Ok [DrawDroneAndRect drone_pos angle_deg
            (rect_width_px c) (rect_height_px c)]
    else Ok [] in
  Ok (background ++ path ++ drone).

(** [MainWindow.start_play] on the canvas, from the five numbers parsed
    out of the text fields; the message boxes leave the canvas alone.
    The division is the IEEE one: Python's differs only at a zero
    divisor, which the check [freq <= 0] has turned away. *)
Definition start_play (altitude rect_w_m rect_h_m zoom freq : float)
    (c : Canvas) : Outcome :=
  if negb (hasImage c) then returned c
  else if negb (hasPath c) then returned c
  else if (freq <=? 0)%float then returned c
  else
    let altitude := if (altitude <=? 0)%float then 1%float else altitude in
    let zoom := if (zoom <=? 0)%float then 1%float else zoom in
    let px_per_meter := (altitude * zoom)%float in
    let rect_w_px := (rect_w_m * px_per_meter)%float in
    let rect_h_px := (rect_h_m * px_per_meter)%float in
    let c1 := setRectangleSizePixels rect_w_px rect_h_px c in
    match py_int (1000 / freq)%float with
    | Raise e => mkOutcome c1 [] (Some e)
    | Ok interval_ms => startAnimation interval_ms c1
    end.

End Methods.

(** The source pixel a destination pixel [(x, y)] of a [w] by [h] crop is
    read from: [lx], [ly], [gx], [gy] and the two roundings, for one
    pixel. *)
Definition source_index (center : QPointF) (cos_t sin_t : float)
    (w h x y : Z) : Res (Z * Z) :=
  let* ly := local_offset y h in
  let* lx := local_offset x w in
  world_index center cos_t sin_t lx ly.

(** The colour the crop shows for a source index: the raster's inside
    its bounds, opaque black outside. *)
Definition sampled (src : QImage) (ixy : Z * Z) : QRgb :=
  if valid src ixy.1 ixy.2 then pixel src ixy.1 ixy.2 else black.

(** The colour destination pixel [(x, y)] is to receive. *)
Definition target (src : QImage) (center : QPointF) (cos_t sin_t : float)
    (w h x y : Z) : QRgb :=
  match source_index center cos_t sin_t w h x y with
  | Ok ixy => sampled src ixy
  | Raise _ => black
  end.

(** Every destination pixel has a source index: the conversions and
    roundings on its way are defined (no overflow, no NaN). *)
Definition indexable (center : QPointF) (cos_t sin_t : float) (w h : Z)
  : Prop :=
  ∀ x y, 0 <= x < w → 0 <= y < h →
         ∃ ixy, source_index center cos_t sin_t w h x y = Ok ixy.

(** [indexable], checked pixel by pixel. *)
Definition is_ok {A} (r : Res A) : bool :=
  match r with Ok _ => true | Raise _ => false end.

Definition indexable_b (center : QPointF) (cos_t sin_t : float) (w h : Z)
  : bool :=
  forallb (λ y, forallb (λ x,
     is_ok (source_index center cos_t sin_t w h x y)) (seqZ 0 w)) (seqZ 0 h).

(** A [w] by [h] pixel buffer. *)
Definition is_frame (w h : Z) (img : QImage) : Prop :=
  img_width img = w ∧ img_height img = h
  ∧ length (img_data img) = Z.to_nat (w * h).

(** A size that comes out below 2 pixels, by [int()] as the code converts
    it or by rounding to nearest. *)
Definition rounds_below_2 (d : float) : Prop :=
  (∃ i, py_int d = Ok i ∧ i < 2) ∨ (∃ r, py_round d = Ok r ∧ r < 2).

(** A footprint size as [__init__] or [setRectangleSizePixels] leave it,
    the latter called with anything but plus infinity. *)
Definition clamped_size (d : float) : Prop :=
  d = 80%float ∨ ∃ v, ¬ is_pos_infinity v ∧ d = py_max 4 v.

(** While playing, the index is a position of the path. *)
Definition index_in_path (c : Canvas) : Prop :=
  playing c = true → 0 <= drone_index c < path_len c.

(** ** The canvas as a state machine *)

Section Driver.

Variable atan2 : float → float → float.
Variables cos sin : float → float.
Variable qt : QtEnv.

(** The calls the window, the mouse and the timer make. *)
Inductive Event : Set :=
| LoadImage (pixmap : QPixmap)
| SetRectangleSize (w_px h_px : float)
| Start (interval_ms : Z)
| Stop
| Press (event : QMouseEvent)
| Move (event : QMouseEvent)
| Release (event : QMouseEvent)
| Tick
| Play (altitude rect_w_m rect_h_m zoom freq : float).

Definition step (e : Event) (c : Canvas) : Outcome :=
  match e with
  | LoadImage pixmap => returned (setImage pixmap c)
  | SetRectangleSize w_px h_px =>
      returned (setRectangleSizePixels w_px h_px c)
  | Start interval_ms => startAnimation atan2 cos sin qt interval_ms c
  | Stop => returned (stopAnimation c)
  | Press event => returned (mousePressEvent event c)
  | Move event => returned (mouseMoveEvent event c)
  | Release event => returned (mouseReleaseEvent event c)
  | Tick => on_timer atan2 cos sin qt c
  | Play altitude rect_w_m rect_h_m zoom freq =>
      start_play atan2 cos sin qt altitude rect_w_m rect_h_m zoom freq c
  end.

(** The canvases a fresh one can become; an exception leaves the
    canvas as the assignments before it made it. *)
Inductive reachable : Canvas → Prop :=
| reachable_init : reachable init
| reachable_step (e : Event) (c : Canvas) :
    reachable c → reachable (after (step e c)).

(** A sequence of calls, from the first to the last. *)
Definition run (events : list Event) (c : Canvas) : Canvas :=
  foldl (λ c e, after (step e c)) c events.

(** What each call of the sequence came to. *)
Fixpoint trace (events : list Event) (c : Canvas) : list Outcome :=
  match events with
  | [] => []
  | e :: events => step e c :: trace events (after (step e c))
  end.

(** A call other than [mousePressEvent], the one that starts a path. *)
Definition not_press (e : Event) : bool :=
  match e with Press _ => false | _ => true end.

End Driver.

(** ** Runs of calls and what they preserve *)

(** A finite double: neither an infinity nor a NaN. *)
Definition finite (f : float) : Prop := is_Some (float_value f).

(** A point of the path that came from a mouse position inside [pm]. *)
Definition drawn_inside (pm : QPixmap) (p : QPointF) : Prop :=
  ∃ q, p = QPointF_of q
       ∧ 0 <= qp_x q < pm_width pm ∧ 0 <= qp_y q < pm_height pm.

(** The raster and the path fit together: [image_qimage] is the pixmap's
    image (or [None] for a null pixmap), and every point of the path was
    drawn inside the pixmap; without a pixmap there is no path. *)
Definition raster_holds_path (c : Canvas) : Prop :=
  match image c with
  | None => image_qimage c = None ∧ path_points c = []
  | Some pm =>
      image_qimage c = (if isNull pm then None else Some (toImage pm))
      ∧ Forall (drawn_inside pm) (path_points c)
  end.

(** Both footprint sizes compare [>= 4.0] (so neither is a NaN). *)
Definition footprint_clamped (c : Canvas) : Prop :=
  (4 <=? rect_width_px c)%float = true
  ∧ (4 <=? rect_height_px c)%float = true.


(** A stroke: the press, then the moves in order. *)
Definition stroke (press : QMouseEvent) (moves : list QMouseEvent)
    (c : Canvas) : Canvas :=
  foldl (λ c ev, mouseMoveEvent ev c) (mousePressEvent press c) moves.

(** The changes a call can make to the canvas, one constructor per
    assignment group of the methods; [start_play] is a resize followed
    by a start. *)
Inductive transition : Canvas → Canvas → Prop :=
| t_load (pixmap : QPixmap) (c : Canvas) :
    transition c (setImage pixmap c)
| t_resize (w_px h_px : float) (c : Canvas) :
    transition c (setRectangleSizePixels w_px h_px c)
| t_start (t : option Z) (c : Canvas) :
    hasImage c = true → hasPath c = true →
    t = timer c ∨ (∃ ms, t = Some (Z.max 1 ms)) →
    transition c (set_timer t (set_playing true (set_drone_index 0 c)))
| t_stop (c : Canvas) :
    transition c (stopAnimation c)
| t_press (q : QPoint) (c : Canvas) :
    hasImage c = true → point_in_image c q = true →
    transition c
      (set_timer None
         (set_playing false
            (set_drone_index 0
               (set_drawing true (set_path_points [QPointF_of q] c)))))
| t_move (q : QPoint) (c : Canvas) :
    drawing c = true → hasImage c = true → point_in_image c q = true →
    transition c (set_path_points (path_points c ++ [QPointF_of q]) c)
| t_release (c : Canvas) :
    transition c (set_drawing false c)
| t_advance (c : Canvas) :
    hasPath c = true → drone_index c < path_len c - 1 →
    transition c (set_drone_index (drone_index c + 1) c).

Section Runs.

Variable atan2 : float → float → float.
Variables cos sin : float → float.
Variable qt : QtEnv.

(** [k] timer ticks in a row. *)
Definition ticks (k : nat) (c : Canvas) : Canvas :=
  Nat.iter k (λ c, after (on_timer atan2 cos sin qt c)) c.

End Runs.

(** ** A small scene for the examples *)

Module Scene.

(** The C library at the arguments a path heading right reaches:
    [atan2(0, dx) = 0] for [dx > 0], [cos(0) = 1], [sin(0) = 0]; NaN
    marks every other argument. *)
Definition atan2 (dy dx : float) : float :=
  if (dy =? 0)%float && (0 <? dx)%float then 0%float else nan.
Definition cos (x : float) : float :=
  if (x =? 0)%float then 1%float else nan.
Definition sin (x : float) : float :=
  if (x =? 0)%float then 0%float else nan.

(** A binding that checks for overflow, and one that does not; Qt finds
    the memory for up to 2^24 pixels. *)
Definition qt : QtEnv := mkQtEnv true (λ w h, w * h <=? 2 ^ 24).
Definition qt_unchecked : QtEnv := mkQtEnv false (λ w h, w * h <=? 2 ^ 24).

(** A binding under which Qt finds the memory for 16 pixels only. *)
Definition qt_cramped : QtEnv := mkQtEnv true (λ w h, w * h <=? 16).

(** A 6 by 4 raster whose pixel at [(x, y)] is opaque with blue
    component [100 + 10 * y + x]. *)
Definition raster : QImage :=
  mkQImage 6 4 ((λ i : Z, black + 100 + 10 * (i / 6) + i mod 6) <$> seqZ 0 24).

Definition path : list QPointF :=
  [mkQPointF 1 2; mkQPointF 3 2; mkQPointF 5 2].

(** The raster loaded, the path drawn, the footprint 4 by 4. *)
Definition loaded : Canvas :=
  mkCanvas (Some (fromImage raster)) (Some raster) path false 0 false
           4 4 None.

Definition running : Canvas :=
  set_timer (Some 500) (set_playing true loaded).



(** The footprint after [setRectangleSizePixels(2.0 ** 31, 4)]. *)
Definition wide : Canvas :=
  setRectangleSizePixels 0x1p+31 4 loaded.

(** The footprint after [setRectangleSizePixels(2.0 ** 100, 2.0 ** 100)]. *)
Definition huge : Canvas :=
  setRectangleSizePixels 0x1p+100 0x1p+100 loaded.

(** The footprint after [setRectangleSizePixels(5, 5)]. *)
Definition five : Canvas :=
  setRectangleSizePixels 5 5 loaded.

(** Footprints assigned directly: 1.5 and 1.25 pixels wide, and 1.25
    pixels wide with a height that is no number. *)
Definition sliver : Canvas := set_rect 1.5 80 loaded.
Definition narrow : Canvas := set_rect 1.25 80 loaded.
Definition narrow_endless : Canvas := set_rect 1.25 infinity loaded.
Definition narrow_nan : Canvas := set_rect 1.25 nan loaded.


(** A session: load the raster, draw a stroke of three points, set a
    4 by 4 footprint, play, and let the timer fire once. *)
Definition session : list Event :=
  [LoadImage (fromImage raster);
   Press (mkMouseEvent LeftButton (mkQPoint 1 2));
   Move (mkMouseEvent LeftButton (mkQPoint 3 2));
   Move (mkMouseEvent LeftButton (mkQPoint 5 2));
   Release (mkMouseEvent LeftButton (mkQPoint 5 2));
   SetRectangleSize 4 4;
   Start 500;
   Tick].


End Scene.

(** ** Properties *)

(** Unfolding the methods by name, also where a section abbreviates
    them with its C library applied. *)
Ltac open_emit_crop := unfold emit_crop.
Ltac open_crop := unfold crop.
Ltac open_startAnimation := unfold startAnimation.
Ltac open_on_timer := unfold on_timer.
Ltac open_start_play := unfold start_play.
Ltac open_step := unfold step.

(** *** Indexing *)

Lemma py_getitem_lookup {A} (l : list A) (i : Z) :
  0 <= i < Z.of_nat (length l) →
  ∃ a, py_getitem l i = Ok a ∧ l !! Z.to_nat i = Some a.
Proof.
  intros Hi. unfold py_getitem.
  destruct (Z.ltb_spec i 0) as [Hneg|_]; [lia|].
  destruct (Z.leb_spec 0 i) as [_|Hneg]; [|lia].
  destruct (Z.ltb_spec i (Z.of_nat (length l))) as [_|Hge]; [|lia].
  cbn [andb].
  destruct (lookup_lt_is_Some_2 l (Z.to_nat i)) as [a Ha]; [lia|].
  exists a. by rewrite Ha.
Qed.

Lemma clamp_index_bounds (c : Canvas) :
  1 <= path_len c → 0 <= clamp_index c <= path_len c - 1.
Proof. unfold clamp_index. lia. Qed.

Lemma clamp_index_id (c : Canvas) :
  0 <= drone_index c < path_len c → clamp_index c = drone_index c.
Proof. unfold clamp_index. lia. Qed.

Lemma hasPath_len (c : Canvas) : hasPath c = true ↔ 2 <= path_len c.
Proof. unfold hasPath. rewrite Z.ltb_lt. lia. Qed.

Section Heading.

Variable atan2 : float → float → float.

(** Inside the path the heading looks forward, at the last index
    backward; either way both points are read in bounds. *)
Lemma heading_forward (c : Canvas) (idx : Z) (p1 p2 : QPointF) :
  0 <= idx < path_len c - 1 →
  path_points c !! Z.to_nat idx = Some p1 →
  path_points c !! Z.to_nat (idx + 1) = Some p2 →
  heading_angle_deg atan2 c idx = Ok (segment_heading atan2 p1 p2).
Proof.
  intros Hi H1 H2. unfold heading_angle_deg.
  destruct (Z.ltb_spec (path_len c) 2); [lia|].
  destruct (Z.ltb_spec idx (path_len c - 1)); [|lia].
  destruct (py_getitem_lookup (path_points c) idx) as (a & -> & Ha);
    [unfold path_len in *; lia|].
  destruct (py_getitem_lookup (path_points c) (idx + 1)) as (b & -> & Hb);
    [unfold path_len in *; lia|].
  cbn. congruence.
Qed.

Lemma heading_backward (c : Canvas) (p1 p2 : QPointF) :
  2 <= path_len c →
  path_points c !! Z.to_nat (path_len c - 2) = Some p1 →
  path_points c !! Z.to_nat (path_len c - 1) = Some p2 →
  heading_angle_deg atan2 c (path_len c - 1)
  = Ok (segment_heading atan2 p1 p2).
Proof.
  intros Hn H1 H2. unfold heading_angle_deg.
  destruct (Z.ltb_spec (path_len c) 2); [lia|].
  destruct (Z.ltb_spec (path_len c - 1) (path_len c - 1)); [lia|].
  replace (path_len c - 1 - 1) with (path_len c - 2) by lia.
  destruct (py_getitem_lookup (path_points c) (path_len c - 2))
    as (a & -> & Ha); [unfold path_len in *; lia|].
  destruct (py_getitem_lookup (path_points c) (path_len c - 1))
    as (b & -> & Hb); [unfold path_len in *; lia|].
  cbn. congruence.
Qed.

Lemma heading_defined (c : Canvas) (idx : Z) :
  0 <= idx < path_len c →
  ∃ a, heading_angle_deg atan2 c idx = Ok a.
Proof.
  intros Hi.
  destruct (Z.lt_ge_cases (path_len c) 2) as [Hn|Hn].
  { unfold heading_angle_deg.
    destruct (Z.ltb_spec (path_len c) 2); [eauto|lia]. }
  destruct (Z.lt_ge_cases idx (path_len c - 1)) as [Hlt|Hge].
  - destruct (lookup_lt_is_Some_2 (path_points c) (Z.to_nat idx))
      as [p1 H1]; [unfold path_len in *; lia|].
    destruct (lookup_lt_is_Some_2 (path_points c) (Z.to_nat (idx + 1)))
      as [p2 H2]; [unfold path_len in *; lia|].
    eexists. apply heading_forward; eauto. lia.
  - assert (idx = path_len c - 1) as -> by lia.
    destruct (lookup_lt_is_Some_2 (path_points c)
                (Z.to_nat (path_len c - 2))) as [p1 H1];
      [unfold path_len in *; lia|].
    destruct (lookup_lt_is_Some_2 (path_points c)
                (Z.to_nat (path_len c - 1))) as [p2 H2];
      [unfold path_len in *; lia|].
    eexists. apply heading_backward; eauto.
Qed.

End Heading.

(** *** Conversions between floats and integers *)

Lemma Qtrunc_floor (v : Q) : (0 <= v)%Q → Qtrunc v = Qfloor v.
Proof.
  destruct v as [n d]. unfold Qle, Qtrunc, Qfloor. cbn. intros Hn.
  apply Z.quot_div_nonneg; lia.
Qed.

Lemma Qtrunc_ceiling (v : Q) : (v <= 0)%Q → Qtrunc v = Qceiling v.
Proof.
  destruct v as [n d]. unfold Qle, Qtrunc, Qceiling, Qfloor. cbn. intros Hn.
  assert (n = - (- n)) as Hnn by lia. rewrite Hnn at 1.
  rewrite Z.quot_opp_l by lia. f_equal. apply Z.quot_div_nonneg; lia.
Qed.

(** [int(f)] is the value of [f] truncated toward zero. *)
Lemma py_int_trunc (f : float) (v : Q) :
  float_value f = Some v → py_int f = Ok (Qtrunc v).
Proof.
  unfold float_value, py_int. destruct (Prim2SF f) as [s| s| |s m e]; try done.
  - by intros [= <-].
  - destruct (Z.leb_spec 0 e) as [He|He]; intros [= <-]; unfold Qtrunc; cbn.
    + by rewrite Z.quot_1_r.
    + rewrite Z2Pos.id; [done|]. apply Z.pow_pos_nonneg; lia.
Qed.

(** A tie goes to the even neighbour. *)
Lemma round_half_even_tie (k d : Z) :
  0 < d → round_half_even ((2 * k + 1) * d) (2 * d) = half_to_even k.
Proof.
  intros Hd. unfold round_half_even, half_to_even.
  assert ((2 * k + 1) * d = 2 * d * k + d) as Heq by ring.
  assert ((2 * k + 1) * d / (2 * d) = k) as ->.
  { symmetry. apply (Z.div_unique_pos _ _ k d); lia. }
  assert (((2 * k + 1) * d) mod (2 * d) = d) as ->.
  { symmetry. apply (Z.mod_unique_pos _ _ k d); lia. }
  by rewrite Z.compare_refl.
Qed.

Lemma py_round_half (f : float) (k : Z) :
  is_half f k → py_round f = Ok (half_to_even k).
Proof.
  intros (v & Hv & Hk). revert Hv. unfold float_value, py_round.
  destruct (Prim2SF f) as [s| s| |s m e]; try done.
  - intros [= <-]. unfold Qeq in Hk. cbn in Hk. lia.
  - destruct (Z.leb_spec 0 e) as [He|He]; intros [= <-];
      unfold Qeq in Hk; cbn in Hk; [lia|].
    rewrite Z2Pos.id in Hk by (apply Z.pow_pos_nonneg; lia).
    assert (2 ^ (- e) = 2 * 2 ^ (- e - 1)) as Hd.
    { rewrite <- Z.pow_succ_r by lia. f_equal. lia. }
    assert (0 < 2 ^ (- e - 1)) by (apply Z.pow_pos_nonneg; lia).
    rewrite Hd in *.
    assert (signed s m = (2 * k + 1) * 2 ^ (- e - 1)) as -> by lia.
    by rewrite round_half_even_tie.
Qed.

(** Rounding to nearest never goes below the truncation of a
    non-negative value: a size that rounds below 2 truncates below 2. *)
Lemma round_half_even_ge (n d : Z) : 0 < d → n / d <= round_half_even n d.
Proof.
  intros Hd. unfold round_half_even.
  destruct (2 * (n mod d) ?= d); [destruct (Z.even (n / d))| |]; lia.
Qed.

Lemma py_round_int_lt2 (f : float) (r : Z) :
  py_round f = Ok r → r < 2 → ∃ i, py_int f = Ok i ∧ i < 2.
Proof.
  unfold py_round, py_int. destruct (Prim2SF f) as [s| s| |s m e]; try done.
  - intros [= <-] _. eexists; split; [done|lia].
  - destruct (Z.leb_spec 0 e) as [He|He]; intros [= <-] Hr.
    + eexists; split; [done|lia].
    + eexists; split; [done|].
      assert (0 < 2 ^ (- e)) as Hd by (apply Z.pow_pos_nonneg; lia).
      pose proof (round_half_even_ge (signed s m) _ Hd) as Hge.
      destruct s; cbn in *.
      * assert (Z.neg m ÷ 2 ^ (- e) <= 0); [|lia].
        apply Z.quot_le_upper_bound; lia.
      * rewrite Z.quot_div_nonneg by lia. lia.
Qed.

(** *** The footprint clamp [max(4.0, v)] *)

Lemma digits2_pos_lower (m : positive) :
  2 ^ (Z.pos (digits2_pos m) - 1) <= Z.pos m.
Proof.
  induction m as [p IH|p IH|]; cbn [digits2_pos]; [| |done].
  - rewrite Pos2Z.inj_succ.
    replace (Z.succ (Z.pos (digits2_pos p)) - 1)
      with (Z.succ (Z.pos (digits2_pos p) - 1)) by lia.
    rewrite Z.pow_succ_r by lia. lia.
  - rewrite Pos2Z.inj_succ.
    replace (Z.succ (Z.pos (digits2_pos p)) - 1)
      with (Z.succ (Z.pos (digits2_pos p) - 1)) by lia.
    rewrite Z.pow_succ_r by lia. lia.
Qed.

(** A double above the subnormal range carries a full 53-bit mantissa. *)
Lemma normal_mantissa (f : float) (s : bool) (m : positive) (e : Z) :
  Prim2SF f = S754_finite s m e → -1074 < e → 2 ^ 52 <= Z.pos m.
Proof.
  intros Hf He. pose proof (Prim2SF_valid f) as Hv. rewrite Hf in Hv.
  cbn in Hv. unfold bounded, canonical_mantissa, fexp in Hv.
  apply andb_prop in Hv as [Hc _]. apply Z.eqb_eq in Hc.
  change (SpecFloat.emin prec emax) with (-1074) in Hc.
  change prec with 53 in Hc.
  assert (Z.pos (digits2_pos m) = 53) as Hd by lia.
  pose proof (digits2_pos_lower m) as Hl. rewrite Hd in Hl. exact Hl.
Qed.

(** Whatever is passed in, short of plus infinity, the clamped size
    converts to an integer, and that integer is at least 4. *)
Lemma py_int_clamp (v : float) :
  ¬ is_pos_infinity v → ∃ i, py_int (py_max 4 v) = Ok i ∧ 4 <= i.
Proof.
  intros Hinf. unfold py_max.
  destruct (4 <? v)%float eqn:Hlt; [|exists 4; by vm_compute].
  rewrite ltb_spec in Hlt. unfold SFltb in Hlt.
  change (Prim2SF 4) with (S754_finite false 4503599627370496 (-50)) in Hlt.
  unfold py_int, is_pos_infinity in *.
  destruct (Prim2SF v) as [s|[|]| |[|] m e] eqn:Hv;
    cbv beta iota delta [SFcompare] in Hlt; try done.
  destruct (Z.compare_spec (-50) e) as [<-|He|He]; try done.
  - (* same exponent, larger mantissa *)
    change (PosDef.Pos.compare_cont Eq 4503599627370496 m)
      with (4503599627370496 ?= m)%positive in Hlt.
    destruct (Pos.compare_spec 4503599627370496 m) as [|Hm|]; try done.
    cbn.
    exists (Z.pos m ÷ 2 ^ 50). split; [done|].
    rewrite Z.quot_div_nonneg by lia.
    apply Z.div_le_lower_bound; lia.
  - pose proof (normal_mantissa v false m e Hv ltac:(lia)) as Hm.
    destruct (Z.leb_spec 0 e) as [He0|He0]; cbn.
    + eexists; split; [done|].
      assert (1 <= 2 ^ e) by (apply (Z.pow_le_mono_r 2 0 e); lia). nia.
    + eexists; split; [done|].
      assert (0 < 2 ^ (- e)) by (apply Z.pow_pos_nonneg; lia).
      assert (2 ^ (- e) <= 2 ^ 49) by (apply Z.pow_le_mono_r; lia).
      rewrite Z.quot_div_nonneg by lia.
      apply Z.div_le_lower_bound; [lia|].
      change (2 ^ 52) with (8 * 2 ^ 49) in Hm. lia.
Qed.

(** *** Pixel buffers *)

Lemma row_major_inj (w x y x' y' : Z) :
  0 <= x < w → 0 <= x' < w → 0 <= y → 0 <= y' →
  Z.to_nat (y * w + x) = Z.to_nat (y' * w + x') → x = x' ∧ y = y'.
Proof.
  intros Hx Hx' Hy Hy' Heq. apply Z2Nat.inj in Heq; [|nia..].
  assert (y = y') as ->; [|lia].
  destruct (Z.lt_trichotomy y y') as [Hlt|[Heq'|Hgt]]; [|done|]; nia.
Qed.

Lemma offset_lt (w h : Z) (img : QImage) (x y : Z) :
  is_frame w h img → 0 <= x < w → 0 <= y < h →
  (offset img x y < length (img_data img))%nat.
Proof. intros (Hw & Hh & Hl) Hx Hy. unfold offset. rewrite Hw, Hl. nia. Qed.

Lemma valid_spec (img : QImage) (x y : Z) :
  valid img x y = true ↔ 0 <= x < img_width img ∧ 0 <= y < img_height img.
Proof. unfold valid. rewrite !andb_true_iff, !Z.leb_le, !Z.ltb_lt. lia. Qed.

Lemma valid_frame (w h : Z) (img : QImage) (x y : Z) :
  is_frame w h img → 0 <= x < w → 0 <= y < h → valid img x y = true.
Proof.
  intros (Hw & Hh & _) Hx Hy. unfold valid. rewrite Hw, Hh.
  repeat (apply andb_true_intro; split); lia.
Qed.

Lemma is_frame_setPixel (w h : Z) (img : QImage) (x y : Z) (v : QRgb) :
  is_frame w h img → is_frame w h (setPixel img x y v).
Proof.
  intros (Hw & Hh & Hl). unfold setPixel.
  destruct (valid img x y); [|done].
  repeat split; cbn; [done..|]. by rewrite length_insert.
Qed.

Lemma pixel_setPixel (w h : Z) (img : QImage) (x y x' y' : Z) (v : QRgb) :
  is_frame w h img → 0 <= x < w → 0 <= y < h → 0 <= x' < w → 0 <= y' < h →
  pixel (setPixel img x y v) x' y'
  = if (x' =? x) && (y' =? y) then v else pixel img x' y'.
Proof.
  intros Hf Hx Hy Hx' Hy'.
  pose proof (is_frame_setPixel w h img x y v Hf) as Hf'.
  unfold pixel. rewrite (valid_frame w h _ x' y' Hf'), (valid_frame w h _ x' y' Hf) by done.
  unfold setPixel. rewrite (valid_frame w h _ x y Hf) by done. cbn.
  pose proof (offset_lt w h img x y Hf Hx Hy) as Hlt.
  destruct Hf as (Hw & Hh & Hl).
  destruct (Z.eqb_spec x' x) as [->|Hne]; cbn.
  - destruct (Z.eqb_spec y' y) as [->|Hne].
    + unfold offset; cbn. by rewrite list_lookup_insert_eq.
    + unfold offset in *; cbn. rewrite list_lookup_insert_ne; [done|].
      rewrite Hw. intros Heq. apply row_major_inj in Heq; lia.
  - unfold offset in *; cbn. rewrite list_lookup_insert_ne; [done|].
    rewrite Hw. intros Heq. apply row_major_inj in Heq; lia.
Qed.

Lemma is_frame_blank (w h : Z) (v : QRgb) :
  is_frame w h (fill (QImage_buffer w h) v).
Proof. repeat split; cbn. by rewrite !length_replicate. Qed.

Lemma pixel_blank (w h x y : Z) (v : QRgb) :
  0 <= x < w → 0 <= y < h → pixel (fill (QImage_buffer w h) v) x y = v.
Proof.
  intros Hx Hy. pose proof (is_frame_blank w h v) as Hf.
  unfold pixel. rewrite (valid_frame w h) by done.
  pose proof (offset_lt w h _ x y Hf Hx Hy) as Hlt.
  unfold fill in *. cbn [img_data] in *.
  rewrite lookup_replicate_2; [done|]. by rewrite length_replicate in Hlt.
Qed.

(** *** Loops *)

Lemma for_each_inv {St} (P : Z → St → Prop) (body : Z → St → Res St)
    (k : nat) (a : Z) (s : St) :
  P a s →
  (∀ i s, a <= i < a + Z.of_nat k → P i s →
          ∃ s', body i s = Ok s' ∧ P (i + 1) s') →
  ∃ s', for_each (seqZ a (Z.of_nat k)) body s = Ok s' ∧ P (a + Z.of_nat k) s'.
Proof.
  revert a s. induction k as [|k IH]; intros a s Ha Hstep.
  - exists s. split; [done|]. by replace (a + Z.of_nat 0) with a by lia.
  - rewrite seqZ_cons by lia. cbn [for_each].
    destruct (Hstep a s) as (s1 & -> & H1); [lia|done|]. cbn [bind].
    replace (Z.pred (Z.of_nat (S k))) with (Z.of_nat k) by lia.
    destruct (IH (Z.succ a) s1) as (s2 & -> & H2).
    + by replace (Z.succ a) with (a + 1) by lia.
    + intros i s' Hi. apply Hstep. lia.
    + exists s2. split; [done|].
      by replace (a + Z.of_nat (S k)) with (Z.succ a + Z.of_nat k) by lia.
Qed.

Lemma for_range_inv {St} (P : Z → St → Prop) (body : Z → St → Res St)
    (n : Z) (s : St) :
  0 <= n → P 0 s →
  (∀ i s, 0 <= i < n → P i s → ∃ s', body i s = Ok s' ∧ P (i + 1) s') →
  ∃ s', for_range n body s = Ok s' ∧ P n s'.
Proof.
  intros Hn H0 Hstep. unfold for_range.
  destruct (for_each_inv P body (Z.to_nat n) 0 s) as (s' & Hs & Hp);
    [done|intros; apply Hstep; [lia|done]|].
  rewrite Z2Nat.id in * by done. eauto.
Qed.

Lemma forallb_seqZ (f : Z → bool) (n : Z) :
  forallb f (seqZ 0 n) = true → ∀ i, 0 <= i < n → f i = true.
Proof.
  intros Hall i Hi. rewrite forallb_forall in Hall. apply Hall.
  apply list_elem_of_In, elem_of_seqZ. lia.
Qed.

Lemma indexable_b_spec (center : QPointF) (cos_t sin_t : float) (w h : Z) :
  indexable_b center cos_t sin_t w h = true →
  indexable center cos_t sin_t w h.
Proof.
  intros Hall x y Hx Hy. unfold indexable_b in Hall.
  pose proof (forallb_seqZ _ _ Hall y Hy) as Hrow. cbn beta in Hrow.
  pose proof (forallb_seqZ _ _ Hrow x Hx) as Hxy. cbn beta in Hxy.
  destruct (source_index center cos_t sin_t w h x y) as [ixy|]; [eauto|done].
Qed.

(** *** The numeric steps raise no [IndexError] *)

Lemma bind_no_index {A B} (r : Res A) (k : A → Res B) :
  no_index r → (∀ a, no_index (k a)) → no_index (bind r k).
Proof.
  intros Hr Hk. destruct r as [a|e]; cbn; [apply Hk|].
  intros [= ->]. by apply Hr.
Qed.

Lemma for_each_no_index {A St} (l : list A) (body : A → St → Res St) (s : St) :
  (∀ i s, no_index (body i s)) → no_index (for_each l body s).
Proof.
  intros Hbody. revert s. induction l as [|i l IH]; intros s; cbn; [done|].
  by apply bind_no_index.
Qed.

Lemma py_int_no_index (f : float) : no_index (py_int f).
Proof.
  unfold py_int, no_index.
  destruct (Prim2SF f) as [| | |s m e]; try done. by destruct (0 <=? e).
Qed.

Lemma py_round_no_index (f : float) : no_index (py_round f).
Proof.
  unfold py_round, no_index.
  destruct (Prim2SF f) as [| | |s m e]; try done. by destruct (0 <=? e).
Qed.

Lemma py_float_no_index (n : Z) : no_index (py_float n).
Proof. unfold py_float, no_index. by destruct (binary_normalize _ _ _ _ _). Qed.

Lemma local_offset_no_index (i n : Z) : no_index (local_offset i n).
Proof.
  unfold local_offset.
  apply bind_no_index; [apply py_float_no_index|intros nf].
  apply bind_no_index; [apply py_float_no_index|by unfold no_index].
Qed.

Lemma to_c_int_no_index (qt : QtEnv) (n : Z) : no_index (to_c_int qt n).
Proof.
  unfold to_c_int, no_index. destruct (in_c_int n); [done|].
  by destruct (_ && _).
Qed.

Lemma QImage_new_no_index (qt : QtEnv) (w h : Z) :
  no_index (QImage_new qt w h).
Proof.
  unfold QImage_new.
  apply bind_no_index; [apply to_c_int_no_index|intros cw].
  apply bind_no_index; [apply to_c_int_no_index|intros ch].
  unfold no_index. by destruct (_ && _).
Qed.

Lemma setPixel_at_no_index (qt : QtEnv) (img : QImage) (x y : Z) (v : QRgb) :
  no_index (setPixel_at qt img x y v).
Proof.
  unfold setPixel_at.
  apply bind_no_index; [apply to_c_int_no_index|intros cx].
  apply bind_no_index; [apply to_c_int_no_index|by unfold no_index].
Qed.

Lemma crop_row_no_index (qt : QtEnv) (src : QImage) (center : QPointF)
    (cos_t sin_t : float) (w h y : Z) (img : QImage) :
  no_index (crop_row qt src center cos_t sin_t w h y img).
Proof.
  unfold crop_row.
  apply bind_no_index; [apply local_offset_no_index|intros ly].
  apply for_each_no_index. intros x s. unfold crop_pixel.
  apply bind_no_index; [apply local_offset_no_index|intros lx].
  apply bind_no_index.
  - unfold world_index.
    apply bind_no_index; [apply py_round_no_index|intros ix].
    apply bind_no_index; [apply py_round_no_index|by unfold no_index].
  - intros [ix iy].
    destruct (_ && _); [apply setPixel_at_no_index|by unfold no_index].
Qed.

(** *** Sizes Qt takes *)

Lemma to_c_int_fits (qt : QtEnv) (n : Z) :
  in_c_int n = true → to_c_int qt n = Ok n.
Proof. unfold to_c_int. by intros ->. Qed.

Lemma in_c_int_below (w x : Z) :
  in_c_int w = true → 0 <= x < w → in_c_int x = true.
Proof.
  unfold in_c_int. rewrite !andb_true_iff, !Z.leb_le, !Z.ltb_lt. lia.
Qed.

Lemma builds_spec (qt : QtEnv) (w h : Z) :
  builds qt w h = true →
  in_c_int w = true ∧ in_c_int h = true ∧ 0 < w ∧ 0 < h
  ∧ allocates qt w h = true.
Proof.
  unfold builds. rewrite !andb_true_iff, !Z.ltb_lt. tauto.
Qed.

(** Where Qt builds the image, the constructor returns the buffer. *)
Lemma QImage_new_builds (qt : QtEnv) (w h : Z) :
  builds qt w h = true → QImage_new qt w h = Ok (QImage_buffer w h).
Proof.
  intros (Hw & Hh & Hw0 & Hh0 & Ha)%builds_spec. unfold QImage_new.
  rewrite !to_c_int_fits by done. cbn [bind].
  destruct (Z.ltb_spec 0 w), (Z.ltb_spec 0 h); try lia. by rewrite Ha.
Qed.

(** Inside an image Qt holds, [setPixel] is called on the coordinates
    themselves. *)
Lemma setPixel_at_inside (qt : QtEnv) (img : QImage) (w h x y : Z)
    (v : QRgb) :
  in_c_int w = true → in_c_int h = true → 0 <= x < w → 0 <= y < h →
  setPixel_at qt img x y v = Ok (setPixel img x y v).
Proof.
  intros Hw Hh Hx Hy. unfold setPixel_at.
  by rewrite (to_c_int_fits qt x (in_c_int_below w x Hw Hx)),
             (to_c_int_fits qt y (in_c_int_below h y Hh Hy)).
Qed.

(** Whatever the loops do to the buffer, they keep its shape. *)
Lemma for_each_keeps {A St} (P : St → Prop) (l : list A)
    (body : A → St → Res St) (s s' : St) :
  (∀ i s s', P s → body i s = Ok s' → P s') →
  P s → for_each l body s = Ok s' → P s'.
Proof.
  intros Hbody. revert s. induction l as [|i l IH]; intros s Hs; cbn.
  { by intros [= <-]. }
  destruct (body i s) as [s1|] eqn:Hi; [cbn|done].
  apply IH. by apply (Hbody i s).
Qed.

Lemma crop_row_keeps (qt : QtEnv) (src : QImage) (center : QPointF)
    (cos_t sin_t : float) (w h y : Z) (fw fh : Z) (img img' : QImage) :
  is_frame fw fh img →
  crop_row qt src center cos_t sin_t w h y img = Ok img' →
  is_frame fw fh img'.
Proof.
  intros Hf. unfold crop_row.
  destruct (local_offset y h) as [ly|]; [cbn [bind]|done].
  apply for_each_keeps; [|done]. clear. intros x s s' Hs. unfold crop_pixel.
  destruct (local_offset x w) as [lx|]; [cbn [bind]|done].
  destruct (world_index _ _ _ _ _) as [[ix iy]|]; [cbn [bind]|done].
  destruct (_ && _); [|by intros [= <-]].
  unfold setPixel_at.
  destruct (to_c_int qt x) as [cx|]; [cbn [bind]|done].
  destruct (to_c_int qt y) as [cy|]; [cbn [bind]|done].
  intros [= <-]. by apply is_frame_setPixel.
Qed.

(** *** The two loops of [_emit_crop] *)

Section Render.

Variable qt : QtEnv.
Variables (src : QImage) (center : QPointF) (cos_t sin_t : float).
Variables (w h : Z).

(** The sizes fit a C [int], as those of an image Qt built do. *)
Hypothesis w_fits : in_c_int w = true.
Hypothesis h_fits : in_c_int h = true.

Local Abbreviation target := (target src center cos_t sin_t w h).
Local Abbreviation indexable := (indexable center cos_t sin_t w h).

Lemma crop_pixel_spec (img : QImage) (x y : Z) (ly : float) (ixy : Z * Z) :
  is_frame w h img → 0 <= x < w → 0 <= y < h →
  local_offset y h = Ok ly →
  source_index center cos_t sin_t w h x y = Ok ixy →
  ∃ img', crop_pixel qt src center cos_t sin_t w y ly x img = Ok img'
          ∧ is_frame w h img'
          ∧ ∀ x' y', 0 <= x' < w → 0 <= y' < h →
              pixel img' x' y'
              = if (x' =? x) && (y' =? y) && valid src ixy.1 ixy.2
                then pixel src ixy.1 ixy.2
                else pixel img x' y'.
Proof.
  intros Hf Hx Hy Hly Hsrc. unfold source_index in Hsrc.
  rewrite Hly in Hsrc. cbn [bind] in Hsrc. unfold crop_pixel.
  destruct (local_offset x w) as [lx|]; [cbn [bind] in *|done].
  rewrite Hsrc. cbn [bind]. destruct ixy as [ix iy]. cbn [fst snd].
  rewrite andb_assoc.
  change ((0 <=? ix) && (ix <? img_width src) && (0 <=? iy)
          && (iy <? img_height src)) with (valid src ix iy).
  destruct (valid src ix iy).
  - rewrite (setPixel_at_inside qt img w h) by done.
    eexists. split; [done|]. split; [by apply is_frame_setPixel|].
    intros x' y' Hx' Hy'. rewrite andb_true_r.
    by apply (pixel_setPixel w h).
  - exists img. split; [done|]. split; [done|].
    intros x' y' _ _. by rewrite andb_false_r.
Qed.

(** One row: the pixels of a black row [y] take their colour, the
    other rows are left alone. *)
Lemma crop_row_spec (img : QImage) (y : Z) :
  indexable → 0 < w → is_frame w h img → 0 <= y < h →
  (∀ x, 0 <= x < w → pixel img x y = black) →
  ∃ img', crop_row qt src center cos_t sin_t w h y img = Ok img'
          ∧ is_frame w h img'
          ∧ ∀ x' y', 0 <= x' < w → 0 <= y' < h →
              pixel img' x' y'
              = if y' =? y then target x' y' else pixel img x' y'.
Proof.
  intros Hidx Hw Hf Hy Hblack. unfold crop_row.
  destruct (Hidx 0 y) as [ixy0 H0]; [lia|done|].
  unfold source_index in H0.
  destruct (local_offset y h) as [ly|] eqn:Hly; [clear H0|done].
  cbn [bind].
  destruct (for_range_inv
    (λ i img', is_frame w h img'
       ∧ ∀ x' y', 0 <= x' < w → 0 <= y' < h →
           pixel img' x' y'
           = if (y' =? y) && (x' <? i) then target x' y'
             else pixel img x' y')
    (crop_pixel qt src center cos_t sin_t w y ly) w img)
    as (img' & Hrun & Hf' & Hpix); [lia| | |].
  - split; [done|]. intros x' y' Hx' Hy'.
    destruct (Z.ltb_spec x' 0); [lia|]. by rewrite andb_false_r.
  - intros i s Hi [Hfs Hs].
    destruct (Hidx i y) as [ixy Hixy]; [done..|].
    destruct (crop_pixel_spec s i y ly ixy) as (s' & Hrun & Hfs' & Hs');
      [done..|].
    exists s'. split; [done|]. split; [done|].
    intros x' y' Hx' Hy'. rewrite Hs', Hs by done.
    unfold target.
    destruct (Z.eqb_spec y' y) as [->|Hne]; cbn [andb];
      [|by rewrite andb_false_r].
    destruct (Z.eqb_spec x' i) as [->|Hne]; cbn [andb].
    + destruct (Z.ltb_spec i (i + 1)); [|lia].
      destruct (Z.ltb_spec i i); [lia|].
      rewrite Hixy. unfold sampled.
      destruct (valid src ixy.1 ixy.2); [done|]. by apply Hblack.
    + destruct (Z.ltb_spec x' i), (Z.ltb_spec x' (i + 1)); try lia; done.
  - exists img'. split; [done|]. split; [done|].
    intros x' y' Hx' Hy'. rewrite Hpix by done.
    destruct (Z.ltb_spec x' w); [|lia]. by rewrite andb_true_r.
Qed.

(** The loops started on a black [w] by [h] buffer end, and leave each
    pixel with the colour of its source index. *)
Lemma crop_loops_spec :
  indexable → 0 < w → 0 <= h →
  ∃ frame,
    for_range h (crop_row qt src center cos_t sin_t w h)
              (fill (QImage_buffer w h) black) = Ok frame
    ∧ is_frame w h frame
    ∧ ∀ x y, 0 <= x < w → 0 <= y < h → pixel frame x y = target x y.
Proof.
  intros Hidx Hw Hh.
  destruct (for_range_inv
    (λ j img, is_frame w h img
       ∧ ∀ x' y', 0 <= x' < w → 0 <= y' < h →
           pixel img x' y' = if y' <? j then target x' y' else black)
    (crop_row qt src center cos_t sin_t w h) h
    (fill (QImage_buffer w h) black))
    as (frame & Hrun & Hf & Hpix); [done| | |].
  - split; [apply is_frame_blank|]. intros x' y' Hx' Hy'.
    destruct (Z.ltb_spec y' 0); [lia|]. by apply pixel_blank.
  - intros j s Hj [Hfs Hs].
    destruct (crop_row_spec s j) as (s' & Hrun & Hfs' & Hs'); [done..| |].
    { intros x Hx. rewrite Hs by done.
      destruct (Z.ltb_spec j j); [lia|done]. }
    exists s'. split; [done|]. split; [done|].
    intros x' y' Hx' Hy'. rewrite Hs', Hs by done.
    destruct (Z.eqb_spec y' j) as [->|Hne].
    + destruct (Z.ltb_spec j (j + 1)); [done|lia].
    + destruct (Z.ltb_spec y' j), (Z.ltb_spec y' (j + 1)); try lia; done.
  - exists frame. split; [done|]. split; [done|].
    intros x y Hx Hy. rewrite Hpix by done.
    destruct (Z.ltb_spec y h); [done|lia].
Qed.

End Render.

(** *** The canvas *)

Section Canvas_facts.

Variable atan2 : float → float → float.
Variables cos sin : float → float.
Variable qt : QtEnv.

(** The current point and its heading are read in bounds as soon as
    the path has a point. *)
Lemma pose_defined (c : Canvas) :
  1 <= path_len c →
  ∃ p a, py_getitem (path_points c) (clamp_index c) = Ok p
         ∧ path_points c !! Z.to_nat (clamp_index c) = Some p
         ∧ heading_angle_deg atan2 c (clamp_index c) = Ok a.
Proof.
  intros Hn. pose proof (clamp_index_bounds c Hn) as Hb.
  destruct (py_getitem_lookup (path_points c) (clamp_index c))
    as (p & Hp & Hl); [unfold path_len in *; lia|].
  destruct (heading_defined atan2 c (clamp_index c)) as [a Ha]; [lia|].
  by exists p, a.
Qed.

(** C10: releasing the left button clears the drawing flag and nothing
    else; releasing any other button leaves the canvas as it was.  So
    the release ends drawing mode exactly when the button is the left
    one, and path, index, playing flag, raster, footprint and timer are
    never touched. *)
Theorem mouseReleaseEvent_frame (event : QMouseEvent) (c : Canvas) :
  let c' := mouseReleaseEvent event c in
  (button event = LeftButton → c' = set_drawing false c ∧ drawing c' = false)
  ∧ (button event ≠ LeftButton → c' = c)
  ∧ (c' ≠ c → button event = LeftButton)
  ∧ path_points c' = path_points c
  ∧ drone_index c' = drone_index c
  ∧ playing c' = playing c
  ∧ image c' = image c
  ∧ image_qimage c' = image_qimage c
  ∧ rect_width_px c' = rect_width_px c
  ∧ rect_height_px c' = rect_height_px c
  ∧ timer c' = timer c.
Proof.
  unfold mouseReleaseEvent.
  destruct (button event) eqn:Hb; cbn; repeat split; done.
Qed.

(** C5: on a path of [n >= 2] points whose last two points differ, the
    heading at the last index [n - 1] is the heading at [n - 2]: both
    are computed from the segment from point [n - 2] to point
    [n - 1]. *)
Theorem heading_last_segment (c : Canvas) (n : Z) (p1 p2 : QPointF) :
  path_len c = n → 2 <= n →
  path_points c !! Z.to_nat (n - 2) = Some p1 →
  path_points c !! Z.to_nat (n - 1) = Some p2 →
  p1 ≠ p2 →
  heading_angle_deg atan2 c (n - 1) = heading_angle_deg atan2 c (n - 2)
  ∧ heading_angle_deg atan2 c (n - 1) = Ok (segment_heading atan2 p1 p2).
Proof.
  intros <- Hn H1 H2 _.
  rewrite (heading_backward atan2 c p1 p2) by done.
  rewrite (heading_forward atan2 c (path_len c - 2) p1 p2); [done|lia|done|].
  by replace (path_len c - 2 + 1) with (path_len c - 1) by lia.
Qed.

(** C8: whatever the index (negative, or at or past the length) and
    whatever the path, the index [max(0, min(index, length - 1))] that
    the paint and sampling routines read the current point at lies in
    [0, length - 1] as soon as the path has a point, and the point and
    its heading are read there in bounds; [paintEvent] never fails
    and [_emit_crop] never raises [IndexError]. *)
Theorem path_access_in_bounds (c : Canvas) :
  (1 <= path_len c →
     0 <= clamp_index c <= path_len c - 1
     ∧ ∃ p a, py_getitem (path_points c) (clamp_index c) = Ok p
              ∧ path_points c !! Z.to_nat (clamp_index c) = Some p
              ∧ heading_angle_deg atan2 c (clamp_index c) = Ok a)
  ∧ (∃ ops, paintEvent atan2 c = Ok ops)
  ∧ raised (emit_crop atan2 cos sin qt c) ≠ Some IndexError.
Proof.
  split; [|split].
  - intros Hn. split; [by apply clamp_index_bounds|by apply pose_defined].
  - unfold paintEvent, hasPath.
    destruct (Z.ltb_spec 1 (path_len c)) as [Hn|Hn]; [|cbn; eauto].
    destruct (py_getitem_lookup (path_points c) 0) as (p0 & -> & _);
      [unfold path_len in *; lia|].
    destruct (pose_defined c) as (p & a & -> & _ & ->); [lia|].
    cbn. eauto.
  - unfold emit_crop, crop, hasPath.
    destruct (hasImage c); [|done]. cbn [negb orb].
    destruct (Z.ltb_spec 1 (path_len c)) as [Hn|Hn]; [|done]. cbn [negb].
    destruct (image_qimage c) as [src|]; [|done].
    destruct (pose_defined c) as (p & a & -> & _ & ->); [lia|].
    cbn [bind].
    destruct (py_int (rect_width_px c)) as [w|[]] eqn:Hw; try done;
      [|by apply py_int_no_index in Hw].
    cbn [bind].
    destruct (py_int (rect_height_px c)) as [h|[]] eqn:Hh; try done;
      [|by apply py_int_no_index in Hh].
    cbn [bind]. destruct ((w <? 2) || (h <? 2)); [done|].
    destruct (QImage_new qt w h) as [blank|[]] eqn:Hnew; try done;
      [|by apply QImage_new_no_index in Hnew].
    cbn [bind].
    match goal with |- context [for_range ?n ?b ?s] =>
      destruct (for_range n b s) as [r|[]] eqn:Hr end; try done.
    exfalso. revert Hr. apply for_each_no_index.
    intros y s. apply crop_row_no_index.
Qed.

End Canvas_facts.

(** *** Sampling *)

Section Sampling.

Variable atan2 : float → float → float.
Variables cos sin : float → float.
Variable qt : QtEnv.

Local Abbreviation emit_crop := (emit_crop atan2 cos sin qt).
Local Abbreviation heading_angle_deg := (heading_angle_deg atan2).

(** With a raster, a path and a footprint of at least 2 by 2 that Qt
    builds an image of, [_emit_crop] emits one pixmap, each pixel the
    colour of its source index. *)
Lemma emit_crop_frame (c : Canvas) (src : QImage) (center : QPointF)
    (a : float) (w h : Z) :
  hasImage c = true → hasPath c = true → image_qimage c = Some src →
  py_getitem (path_points c) (clamp_index c) = Ok center →
  heading_angle_deg c (clamp_index c) = Ok a →
  py_int (rect_width_px c) = Ok w → py_int (rect_height_px c) = Ok h →
  2 <= w → 2 <= h → builds qt w h = true →
  indexable center (cos (radians a)) (sin (radians a)) w h →
  ∃ frame,
    emit_crop c = mkOutcome c [fromImage frame] None
    ∧ is_frame w h frame
    ∧ ∀ x y, 0 <= x < w → 0 <= y < h →
        pixel frame x y
        = target src center (cos (radians a)) (sin (radians a)) w h x y.
Proof.
  intros Hi Hp Hq Hc Ha Hw Hh Hw2 Hh2 Hb Hidx.
  pose proof (builds_spec qt w h Hb) as (Hcw & Hch & _).
  destruct (crop_loops_spec qt src center (cos (radians a))
              (sin (radians a)) w h Hcw Hch Hidx)
    as (frame & Hrun & Hf & Hpix); [lia..|].
  exists frame. split; [|done].
  open_emit_crop; open_crop. rewrite Hi, Hp, Hq. cbn [negb orb].
  rewrite Hc, Ha. cbn [bind]. rewrite Hw, Hh. cbn [bind].
  destruct (Z.ltb_spec w 2), (Z.ltb_spec h 2); try lia. cbn [orb].
  rewrite (QImage_new_builds qt w h Hb). cbn [bind].
  by rewrite Hrun.
Qed.

(** A pixmap [_emit_crop] emits has the footprint's integer sizes,
    which are at least 2, whenever Qt builds an image of them. *)
Lemma crop_frame_shape (c : Canvas) (pix : QPixmap) :
  crop atan2 cos sin qt c = Ok (Some pix) →
  ∃ w h, py_int (rect_width_px c) = Ok w
         ∧ py_int (rect_height_px c) = Ok h
         ∧ 2 <= w ∧ 2 <= h
         ∧ (builds qt w h = true → is_frame w h (toImage pix)).
Proof.
  open_crop.
  destruct (negb (hasImage c) || negb (hasPath c)); [done|].
  destruct (image_qimage c) as [src|]; [|done].
  destruct (py_getitem _ _) as [center|]; [cbn [bind]|done].
  destruct (heading_angle_deg c _) as [a|]; [cbn [bind]|done].
  destruct (py_int (rect_width_px c)) as [w|]; [cbn [bind]|done].
  destruct (py_int (rect_height_px c)) as [h|]; [cbn [bind]|done].
  destruct (Z.ltb_spec w 2), (Z.ltb_spec h 2); cbn [orb]; try done.
  destruct (QImage_new qt w h) as [blank|] eqn:Hnew; [cbn [bind]|done].
  destruct (for_range _ _ _) as [result|] eqn:Hrun; [cbn [bind]|done].
  intros [= <-]. exists w, h. do 4 (split; [done|]). intros Hb.
  rewrite (QImage_new_builds qt w h Hb) in Hnew. injection Hnew as <-.
  cbn [toImage]. revert Hrun. apply for_each_keeps.
  - intros y s s' Hs. by apply crop_row_keeps.
  - apply is_frame_blank.
Qed.

(** With a footprint below 2 pixels in one direction, [_emit_crop]
    returns before it allocates anything. *)
Lemma emit_crop_skip (c : Canvas) (w h : Z) :
  py_int (rect_width_px c) = Ok w → py_int (rect_height_px c) = Ok h →
  w < 2 ∨ h < 2 → emit_crop c = returned c.
Proof.
  intros Hw Hh Hsmall. open_emit_crop; open_crop.
  destruct (hasImage c); [|done]. cbn [negb orb].
  destruct (hasPath c) eqn:Hp; [|done]. cbn [negb].
  destruct (image_qimage c) as [src|]; [|done].
  apply hasPath_len in Hp.
  destruct (pose_defined atan2 c) as (p & a & -> & _ & ->); [lia|].
  cbn [bind]. rewrite Hw, Hh. cbn [bind].
  destruct (Z.ltb_spec w 2), (Z.ltb_spec h 2); try lia; done.
Qed.

(** C1, as the code has it: with a raster, a centre point, a heading and
    a footprint of integer size [w >= 2] by [h >= 2] that Qt builds an
    image of (both sizes fit a C [int] and the memory is there),
    [_emit_crop] emits one [w] by [h] frame; its pixel [(x, y)], with
    [lx = x - w/2] and [ly = y - h/2], is the raster's pixel at
    [(round(cx + cos*lx - sin*ly), round(cy + sin*lx + cos*ly))] when
    that index lies in the raster, and opaque black otherwise.  (The
    rounded coordinates are taken to exist: [indexable].) *)
Theorem emit_crop_samples (c : Canvas) (src : QImage) (center : QPointF)
    (angle_deg : float) (w h : Z) :
  hasImage c = true → hasPath c = true → image_qimage c = Some src →
  py_getitem (path_points c) (clamp_index c) = Ok center →
  heading_angle_deg c (clamp_index c) = Ok angle_deg →
  py_int (rect_width_px c) = Ok w → py_int (rect_height_px c) = Ok h →
  2 <= w → 2 <= h → builds qt w h = true →
  let cos_t := cos (radians angle_deg) in
  let sin_t := sin (radians angle_deg) in
  indexable center cos_t sin_t w h →
  ∃ frame,
    emit_crop c = mkOutcome c [fromImage frame] None
    ∧ is_frame w h frame
    ∧ ∀ x y lx ly ix iy,
        0 <= x < w → 0 <= y < h →
        local_offset x w = Ok lx → local_offset y h = Ok ly →
        py_round (pf_x center + cos_t * lx - sin_t * ly)%float = Ok ix →
        py_round (pf_y center + sin_t * lx + cos_t * ly)%float = Ok iy →
        (0 <= ix < img_width src ∧ 0 <= iy < img_height src →
           pixel frame x y = pixel src ix iy)
        ∧ (¬ (0 <= ix < img_width src ∧ 0 <= iy < img_height src) →
           pixel frame x y = black).
Proof.
  intros Hi Hp Hq Hc Ha Hw Hh Hw2 Hh2 Hb cos_t sin_t Hidx.
  destruct (emit_crop_frame c src center angle_deg w h)
    as (frame & Hemit & Hf & Hpix); [done..|].
  exists frame. split; [done|]. split; [done|].
  intros x y lx ly ix iy Hx Hy Hlx Hly Hix Hiy.
  rewrite Hpix by done. unfold target, source_index, world_index.
  rewrite Hly, Hlx. cbn [bind]. fold cos_t sin_t.
  rewrite Hix, Hiy. cbn [bind]. unfold sampled. cbn [fst snd].
  pose proof (valid_spec src ix iy) as Hv.
  destruct (valid src ix iy); split; intros Hb'; try done.
  - by destruct Hb'; apply Hv.
  - assert (false = true); [by apply Hv|done].
Qed.

(** C7, as the code has it: when both footprint sizes are finite numbers
    (neither an infinity nor a NaN) and either comes out below 2
    pixels, by [int()] as the code converts it or by rounding to
    nearest, [_emit_crop] is a no-op: it emits no frame, raises nothing
    and leaves the canvas as it was. *)
Theorem emit_crop_degenerate (c : Canvas) :
  finite (rect_width_px c) → finite (rect_height_px c) →
  rounds_below_2 (rect_width_px c) ∨ rounds_below_2 (rect_height_px c) →
  emit_crop c = returned c
  ∧ after (emit_crop c) = c
  ∧ emitted (emit_crop c) = []
  ∧ raised (emit_crop c) = None.
Proof.
  intros [vw Hvw] [vh Hvh] Hsmall.
  pose proof (py_int_trunc _ _ Hvw) as Hw.
  pose proof (py_int_trunc _ _ Hvh) as Hh.
  assert (emit_crop c = returned c) as ->; [|done].
  apply (emit_crop_skip c _ _ Hw Hh).
  destruct Hsmall as [[(i & Hi & Hlt)|(r & Hr & Hlt)]
                     |[(i & Hi & Hlt)|(r & Hr & Hlt)]].
  - left. congruence.
  - left. destruct (py_round_int_lt2 _ _ Hr Hlt) as (i & Hi & Hi2).
    congruence.
  - right. congruence.
  - right. destruct (py_round_int_lt2 _ _ Hr Hlt) as (i & Hi & Hi2).
    congruence.
Qed.

End Sampling.

(** *** Rounding and the tick interval *)

(** C4, as the code has it: a source coordinate whose fractional part is
    exactly one half is rounded to its even neighbour (2.5 to 2, 3.5 to
    4), for [gx] and for [gy] alike. *)
Theorem world_index_half_even (center : QPointF) (cos_t sin_t lx ly : float)
    (kx ky : Z) :
  let gx := (pf_x center + cos_t * lx - sin_t * ly)%float in
  let gy := (pf_y center + sin_t * lx + cos_t * ly)%float in
  (is_half gx kx → ∀ iy, py_round gy = Ok iy →
     world_index center cos_t sin_t lx ly = Ok (half_to_even kx, iy))
  ∧ (is_half gy ky → ∀ ix, py_round gx = Ok ix →
     world_index center cos_t sin_t lx ly = Ok (ix, half_to_even ky))
  ∧ (is_half gx kx → is_half gy ky →
     world_index center cos_t sin_t lx ly
     = Ok (half_to_even kx, half_to_even ky)).
Proof.
  intros gx gy. unfold world_index. fold gx gy. repeat split.
  - intros Hx iy ->. by rewrite (py_round_half gx kx Hx).
  - intros Hy ix ->. by rewrite (py_round_half gy ky Hy).
  - intros Hx Hy.
    by rewrite (py_round_half gx kx Hx), (py_round_half gy ky Hy).
Qed.

Section Playing.

Variable atan2 : float → float → float.
Variables cos sin : float → float.
Variable qt : QtEnv.

Local Abbreviation emit_crop := (emit_crop atan2 cos sin qt).
Local Abbreviation startAnimation := (startAnimation atan2 cos sin qt).
Local Abbreviation on_timer := (on_timer atan2 cos sin qt).
Local Abbreviation start_play := (start_play atan2 cos sin qt).

Lemma after_emit_crop (c : Canvas) : after (emit_crop c) = c.
Proof. open_emit_crop. by destruct (crop _ _ _ _ c) as [[pix|]|e]. Qed.


Lemma after_startAnimation (interval_ms : Z) (c : Canvas) :
  let c' := after (startAnimation interval_ms c) in
  (hasImage c && hasPath c = false → c' = c)
  ∧ (hasImage c && hasPath c = true →
       playing c' = true ∧ drone_index c' = 0
       ∧ path_points c' = path_points c
       ∧ (raised (startAnimation interval_ms c) = None →
            timer c' = Some (Z.max 1 interval_ms))).
Proof.
  open_startAnimation.
  destruct (hasImage c), (hasPath c); cbn [negb orb andb]; split; try done.
  intros _.
  pose proof (after_emit_crop (set_playing true (set_drone_index 0 c))) as He.
  destruct (raised (emit_crop _)) eqn:Hr; cbn; rewrite ?He, ?Hr; cbn;
    repeat split; done.
Qed.

(** C3, as the code has it: for a frequency that passed the check
    [freq <= 0] and whose quotient [1000.0 / freq] is a finite double,
    the interval handed to [startAnimation] is [int(1000.0 / freq)],
    the quotient truncated toward zero. *)
Theorem start_play_interval (altitude rect_w_m rect_h_m zoom freq : float)
    (c : Canvas) (q : Q) :
  hasImage c = true → hasPath c = true →
  (freq <=? 0)%float = false →
  float_value (1000 / freq)%float = Some q →
  let px := ((if (altitude <=? 0)%float then 1 else altitude)
             * (if (zoom <=? 0)%float then 1 else zoom))%float in
  start_play altitude rect_w_m rect_h_m zoom freq c
  = startAnimation (Qtrunc q)
      (setRectangleSizePixels (rect_w_m * px) (rect_h_m * px) c).
Proof.
  intros Hi Hp Hf Hq px. open_start_play.
  rewrite Hi, Hp, Hf. cbn [negb]. by rewrite (py_int_trunc _ _ Hq).
Qed.

End Playing.

(** *** The footprint the setter leaves, and the playing invariant *)


Lemma clamped_size_init :
  clamped_size (rect_width_px init) ∧ clamped_size (rect_height_px init).
Proof. split; by left. Qed.

Lemma clamped_size_setter (w_px h_px : float) (c : Canvas) :
  ¬ is_pos_infinity w_px → ¬ is_pos_infinity h_px →
  clamped_size (rect_width_px (setRectangleSizePixels w_px h_px c))
  ∧ clamped_size (rect_height_px (setRectangleSizePixels w_px h_px c)).
Proof. intros Hw Hh. split; right; eauto. Qed.

Section Invariant.

Variable atan2 : float → float → float.
Variables cos sin : float → float.
Variable qt : QtEnv.

Local Abbreviation emit_crop := (emit_crop atan2 cos sin qt).
Local Abbreviation crop := (crop atan2 cos sin qt).
Local Abbreviation startAnimation := (startAnimation atan2 cos sin qt).
Local Abbreviation on_timer := (on_timer atan2 cos sin qt).
Local Abbreviation step := (step atan2 cos sin qt).
Local Abbreviation reachable := (reachable atan2 cos sin qt).

Lemma step_index_in_path (e : Event) (c : Canvas) :
  index_in_path c → index_in_path (after (step e c)).
Proof.
  unfold index_in_path. intros Hinv.
  destruct e as [pm|w h|ms| |ev|ev|ev| |al rw rh zm fr];
    open_step; cbn [after returned].
  - done.
  - done.
  - destruct (after_startAnimation atan2 cos sin qt ms c) as [Hno Hyes].
    destruct (hasImage c && hasPath c) eqn:Hg.
    + destruct Hyes as (_ & -> & Hpath & _); [done|]. intros _.
      apply andb_prop in Hg as [_ Hp]. apply hasPath_len in Hp.
      unfold path_len in *. rewrite Hpath. lia.
    + by rewrite Hno.
  - done.
  - unfold mousePressEvent.
    destruct (hasImage c); [|done]. cbn [negb].
    destruct (is_left (button ev)); [|done].
    by destruct (point_in_image c (pos ev)).
  - unfold mouseMoveEvent.
    destruct (negb (drawing c) || negb (hasImage c)); [done|].
    destruct (point_in_image c (pos ev)); [|done].
    unfold path_len in *. cbn. rewrite length_app. cbn. intros Hp.
    specialize (Hinv Hp). lia.
  - unfold mouseReleaseEvent. by destruct (is_left (button ev)).
  - open_on_timer.
    destruct (hasPath c); [|done]. cbn [negb].
    destruct (Z.ltb_spec (drone_index c) (path_len c - 1)); [|done].
    rewrite after_emit_crop. unfold path_len in *. cbn. intros Hp.
    specialize (Hinv Hp). lia.
  - unfold start_play.
    destruct (hasImage c) eqn:Hi; [|done]. cbn [negb].
    destruct (hasPath c) eqn:Hp; [|done]. cbn [negb].
    destruct (fr <=? 0)%float; [done|].
    destruct (py_int _) as [ms|err]; [|done].
    match goal with |- context [after (_ ?c1)] =>
      destruct (after_startAnimation atan2 cos sin qt ms c1) as [_ Hyes] end.
    destruct Hyes as (_ & -> & Hpath & _);
      [change (hasImage c && hasPath c = true); by rewrite Hi, Hp|].
    intros _. apply hasPath_len in Hp.
    unfold path_len in *. rewrite Hpath. cbn. lia.
Qed.

Lemma reachable_run (events : list Event) (c : Canvas) :
  reachable c → reachable (run atan2 cos sin qt events c).
Proof.
  revert c. induction events as [|e events IH]; intros c Hc; [done|].
  cbn. apply IH. by apply reachable_step.
Qed.

(** C6: in every canvas reachable through the public calls, while the
    playing flag is set the index satisfies
    [0 <= drone_index < len(path_points)].  In particular
    [startAnimation] sets the flag only together with index 0 on a path
    of at least 2 points, a tick never moves the index past
    [length - 1], and replacing the path (a new stroke or a new raster)
    clears the flag. *)
Theorem playing_index_in_path :
  (∀ c, reachable c → playing c = true →
        0 <= drone_index c < path_len c)
  ∧ (∀ ms c, let c' := after (startAnimation ms c) in
       (hasImage c && hasPath c = true →
          playing c' = true ∧ drone_index c' = 0 ∧ 2 <= path_len c')
       ∧ (hasImage c && hasPath c = false → c' = c))
  ∧ (∀ c, let c' := after (on_timer c) in
       path_points c' = path_points c
       ∧ (drone_index c <= path_len c - 1 →
          drone_index c <= drone_index c' <= path_len c - 1)
       ∧ drone_index c' <= drone_index c + 1)
  ∧ (∀ ev c, path_points (mousePressEvent ev c) ≠ path_points c →
             playing (mousePressEvent ev c) = false
             ∧ drone_index (mousePressEvent ev c) = 0)
  ∧ (∀ pm c, playing (setImage pm c) = false
             ∧ drone_index (setImage pm c) = 0).
Proof.
  split; [|split; [|split; [|split]]].
  - intros c Hreach. change (index_in_path c).
    induction Hreach as [|e c _ IH]; [done|by apply step_index_in_path].
  - intros ms c.
    destruct (after_startAnimation atan2 cos sin qt ms c) as [Hno Hyes].
    split; [|done]. intros Hg.
    destruct (Hyes Hg) as (Hplay & Hidx & Hpath & _).
    repeat split; [done..|].
    apply andb_prop in Hg as [_ Hp]. apply hasPath_len in Hp.
    unfold path_len in *. rewrite Hpath. lia.
  - intros c. open_on_timer; unfold path_len.
    destruct (hasPath c); cbn [negb];
      [|cbn; repeat split; try done; lia].
    destruct (Z.ltb_spec (drone_index c)
                (Z.of_nat (length (path_points c)) - 1));
      [|cbn; repeat split; try done; lia].
    rewrite after_emit_crop. cbn. repeat split; try done; lia.
  - intros ev c. unfold mousePressEvent.
    destruct (hasImage c); [|done]. cbn [negb].
    destruct (is_left (button ev)); [|done].
    by destruct (point_in_image c (pos ev)).
  - done.
Qed.

End Invariant.

(** ** Further properties *)

(** *** Every call is a chain of transitions *)

Section Transitions.

Variable atan2 : float → float → float.
Variables cos sin : float → float.
Variable qt : QtEnv.

Lemma startAnimation_transition (ms : Z) (c : Canvas) :
  rtc transition c (after (startAnimation atan2 cos sin qt ms c)).
Proof.
  open_startAnimation.
  destruct (hasImage c) eqn:Hi; [|apply rtc_refl]. cbn [negb orb].
  destruct (hasPath c) eqn:Hp; [|apply rtc_refl]. cbn [negb].
  pose proof (after_emit_crop atan2 cos sin qt
                (set_playing true (set_drone_index 0 c))) as He.
  destruct (raised _) eqn:Hr; cbn [after].
  - rewrite He. apply rtc_once.
    apply (t_start (timer c) c); [done..|by left].
  - rewrite He. apply rtc_once.
    apply (t_start (Some (Z.max 1 ms)) c); [done..|right; eauto].
Qed.

Lemma step_transitions (e : Event) (c : Canvas) :
  rtc transition c (after (step atan2 cos sin qt e c)).
Proof.
  destruct e as [pm|w h|ms| |ev|ev|ev| |al rw rh zm fr];
    open_step; cbn [after returned].
  - apply rtc_once, t_load.
  - apply rtc_once, t_resize.
  - apply startAnimation_transition.
  - apply rtc_once, t_stop.
  - unfold mousePressEvent.
    destruct (hasImage c) eqn:Hi; [|apply rtc_refl]. cbn [negb].
    destruct (is_left (button ev)); [|apply rtc_refl].
    destruct (point_in_image c (pos ev)) eqn:Hin; [|apply rtc_refl].
    by apply rtc_once, t_press.
  - unfold mouseMoveEvent.
    destruct (drawing c) eqn:Hd; [|apply rtc_refl]. cbn [negb orb].
    destruct (hasImage c) eqn:Hi; [|apply rtc_refl]. cbn [negb].
    destruct (point_in_image c (pos ev)) eqn:Hin; [|apply rtc_refl].
    by apply rtc_once, t_move.
  - unfold mouseReleaseEvent.
    destruct (is_left (button ev)); [|apply rtc_refl].
    apply rtc_once, t_release.
  - open_on_timer.
    destruct (hasPath c) eqn:Hp; cbn [negb after returned];
      [|apply rtc_once, t_stop].
    destruct (Z.ltb_spec (drone_index c) (path_len c - 1));
      [|apply rtc_once, t_stop].
    rewrite after_emit_crop. by apply rtc_once, t_advance.
  - open_start_play.
    destruct (hasImage c); [|apply rtc_refl]. cbn [negb].
    destruct (hasPath c); [|apply rtc_refl]. cbn [negb].
    destruct (fr <=? 0)%float; [apply rtc_refl|].
    destruct (py_int _) as [ms|err]; cbn [after].
    + eapply rtc_l; [apply t_resize|]. apply startAnimation_transition.
    + apply rtc_once, t_resize.
Qed.

(** What the fresh canvas has and every transition keeps, every
    reachable canvas has. *)
Lemma reachable_invariant (P : Canvas → Prop) :
  P init → (∀ c c', transition c c' → P c → P c') →
  ∀ c, reachable atan2 cos sin qt c → P c.
Proof.
  intros Hinit Hkeep c Hreach. induction Hreach as [|e c _ IH]; [done|].
  pose proof (step_transitions e c) as Hsteps.
  induction Hsteps as [|c1 c2 c3 H12 _ IH']; [done|].
  apply IH'. by apply (Hkeep c1).
Qed.

End Transitions.

(** *** What every reachable canvas satisfies *)

Lemma leb_4_py_max (v : float) : (4 <=? py_max 4 v)%float = true.
Proof.
  unfold py_max. destruct (4 <? v)%float eqn:Hlt; [|by vm_compute].
  rewrite ltb_spec in Hlt. rewrite leb_spec.
  unfold SFltb, SFleb in *. by destruct (SFcompare _ _) as [[| |]|].
Qed.

(** A size that compares [>= 4.0] is plus infinity or converts to an
    integer of at least 4. *)
Lemma py_int_ge_4 (d : float) :
  (4 <=? d)%float = true →
  is_pos_infinity d ∨ ∃ i, py_int d = Ok i ∧ 4 <= i.
Proof.
  intros Hle.
  assert (is_pos_infinity d ∨ ¬ is_pos_infinity d) as [Hinf|Hfin].
  { unfold is_pos_infinity.
    destruct (Prim2SF d) as [|[|]| |]; (by left) || (by right). }
  { by left. }
  right. destruct (4 <? d)%float eqn:Hlt.
  - pose proof (py_int_clamp d Hfin) as Hclamp.
    unfold py_max in Hclamp. by rewrite Hlt in Hclamp.
  - rewrite leb_spec in Hle. rewrite ltb_spec in Hlt.
    unfold SFleb, SFltb in *.
    change (Prim2SF 4) with (S754_finite false 4503599627370496 (-50)) in *.
    unfold py_int.
    destruct (Prim2SF d) as [s|[|]| |[|] m e] eqn:Hd;
      cbv beta iota delta [SFcompare] in Hle, Hlt; try done.
    destruct (Z.compare_spec (-50) e) as [<-|He|He]; try done.
    change (PosDef.Pos.compare_cont Eq 4503599627370496 m)
      with (4503599627370496 ?= m)%positive in *.
    destruct (Pos.compare_spec 4503599627370496 m) as [<-|Hm|Hm]; try done.
    exists 4. by vm_compute.
Qed.

Lemma transition_raster_holds_path (c c' : Canvas) :
  transition c c' → raster_holds_path c → raster_holds_path c'.
Proof.
  intros Ht Hinv. destruct Ht as [pm c| | | |q c Hi Hin|q c Hd Hi Hin| |];
    try exact Hinv.
  - unfold raster_holds_path. cbn. by destruct (isNull pm).
  - unfold raster_holds_path, point_in_image, hasImage in *. cbn.
    destruct (image c) as [pm|]; [|done]. destruct Hinv as [Hq _].
    split; [done|]. apply Forall_singleton. exists q. split; [done|].
    apply andb_prop in Hin as [Hx Hy].
    apply andb_prop in Hx as [Hx0 Hx1]. apply andb_prop in Hy as [Hy0 Hy1].
    lia.
  - unfold raster_holds_path, point_in_image, hasImage in *. cbn.
    destruct (image c) as [pm|]; [|done]. destruct Hinv as [Hq Hall].
    split; [done|]. apply Forall_app. split; [done|].
    apply Forall_singleton. exists q. split; [done|].
    apply andb_prop in Hin as [Hx Hy].
    apply andb_prop in Hx as [Hx0 Hx1]. apply andb_prop in Hy as [Hy0 Hy1].
    lia.
Qed.

Lemma transition_footprint_clamped (c c' : Canvas) :
  transition c c' → footprint_clamped c → footprint_clamped c'.
Proof.
  intros Ht Hinv. destruct Ht; try exact Hinv.
  split; apply leb_4_py_max.
Qed.


Lemma raster_of_path (c : Canvas) :
  raster_holds_path c → path_points c ≠ [] →
  ∃ pm, image c = Some pm ∧ image_qimage c = Some (toImage pm)
        ∧ 0 < pm_width pm ∧ 0 < pm_height pm.
Proof.
  unfold raster_holds_path. intros Hinv Hpath.
  destruct (image c) as [pm|]; [|by destruct Hinv].
  destruct Hinv as [Hq Hall]. exists pm.
  destruct (path_points c) as [|p path]; [done|].
  apply Forall_cons in Hall as [(q & _ & Hx & Hy) _].
  assert (isNull pm = false) as Hnull.
  { unfold isNull. apply orb_false_intro; apply Z.leb_gt; lia. }
  rewrite Hnull in Hq. repeat split; [done|lia..].
Qed.

Section Reachable_facts.

Variable atan2 : float → float → float.
Variables cos sin : float → float.
Variable qt : QtEnv.

Local Abbreviation reachable := (reachable atan2 cos sin qt).
Local Abbreviation emit_crop := (emit_crop atan2 cos sin qt).
Local Abbreviation crop := (crop atan2 cos sin qt).
Local Abbreviation on_timer := (on_timer atan2 cos sin qt).

Lemma clamped_never_small (d : float) (i : Z) :
  (4 <=? d)%float = true → py_int d = Ok i → 4 <= i.
Proof.
  intros Hle Hi. destruct (py_int_ge_4 d Hle) as [Hinf|(j & Hj & Hj4)].
  - unfold py_int in Hi. by rewrite Hinf in Hi.
  - congruence.
Qed.

(** With a raster, a path and sizes that never convert below 2,
    [_emit_crop] does not return early. *)
Lemma crop_not_skipped (c : Canvas) (src : QImage) :
  hasImage c = true → hasPath c = true → image_qimage c = Some src →
  (∀ w, py_int (rect_width_px c) = Ok w → 2 <= w) →
  (∀ h, py_int (rect_height_px c) = Ok h → 2 <= h) →
  crop c ≠ Ok None.
Proof.
  intros Hi Hp Hq Hw Hh. open_crop. rewrite Hi, Hp, Hq. cbn [negb orb].
  destruct (pose_defined atan2 c) as (p & a & -> & _ & ->);
    [apply hasPath_len in Hp; lia|].
  cbn [bind].
  destruct (py_int (rect_width_px c)) as [w|]; [cbn [bind]|done].
  destruct (py_int (rect_height_px c)) as [h|]; [cbn [bind]|done].
  specialize (Hw w eq_refl). specialize (Hh h eq_refl).
  destruct (Z.ltb_spec w 2), (Z.ltb_spec h 2); try lia. cbn [orb].
  destruct (QImage_new qt w h); [cbn [bind]|done].
  by destruct (for_range _ _ _).
Qed.

(** A call that does not return early emits one pixmap, of the
    footprint's integer sizes whenever Qt builds such an image, or
    raises and emits nothing. *)
Lemma crop_outcome (c : Canvas) :
  crop c ≠ Ok None →
  (∃ pix, emit_crop c = mkOutcome c [pix] None
          ∧ ∀ w h, py_int (rect_width_px c) = Ok w →
                   py_int (rect_height_px c) = Ok h →
                   builds qt w h = true → is_frame w h (toImage pix))
  ∨ (∃ e, emit_crop c = mkOutcome c [] (Some e)).
Proof.
  intros Hcrop. open_emit_crop.
  destruct (crop c) as [[pix|]|e] eqn:Hr; [left|done|right; eauto].
  exists pix. split; [done|]. intros w h Hw Hh Hb.
  destruct (crop_frame_shape atan2 cos sin qt c pix Hr)
    as (w' & h' & Hw' & Hh' & _ & _ & Hframe).
  assert (w' = w) as -> by congruence. assert (h' = h) as -> by congruence.
  by apply Hframe.
Qed.

(** The two invariants of reachable canvases rule the early returns
    out. *)
Lemma crop_not_skipped_reachable (c : Canvas) :
  raster_holds_path c → footprint_clamped c → hasPath c = true →
  crop c ≠ Ok None.
Proof.
  intros Hraster [Hw Hh] Hp.
  destruct (raster_of_path c Hraster) as (pm & Hi & Hq & _).
  { apply hasPath_len in Hp. unfold path_len in Hp.
    destruct (path_points c); [cbn in Hp; lia|done]. }
  apply (crop_not_skipped c (toImage pm)); [by unfold hasImage; rewrite Hi|done..| |].
  - intros w Hpw. pose proof (clamped_never_small _ _ Hw Hpw). lia.
  - intros h Hph. pose proof (clamped_never_small _ _ Hh Hph). lia.
Qed.

Lemma reachable_raster (c : Canvas) :
  reachable c → raster_holds_path c.
Proof.
  revert c. apply reachable_invariant; [done|].
  apply transition_raster_holds_path.
Qed.

Lemma reachable_footprint (c : Canvas) :
  reachable c → footprint_clamped c.
Proof.
  revert c. apply reachable_invariant; [by vm_compute|].
  apply transition_footprint_clamped.
Qed.

(** X1: in every reachable canvas the raster and the path fit together:
    [image_qimage] is the image of the pixmap (none for a null pixmap),
    every path point is a mouse position inside the pixmap, and so a
    canvas with a point on its path has a raster with pixels. *)
Theorem reachable_raster_holds_path (c : Canvas) :
  reachable c →
  raster_holds_path c
  ∧ (path_points c ≠ [] →
     ∃ pm, image c = Some pm ∧ image_qimage c = Some (toImage pm)
           ∧ 0 < pm_width pm ∧ 0 < pm_height pm).
Proof.
  intros Hreach. pose proof (reachable_raster c Hreach) as Hinv.
  split; [done|]. by apply raster_of_path.
Qed.

(** X2: in every reachable canvas both footprint sizes compare
    [>= 4.0]: they are never NaN and never below the clamp, and each is
    plus infinity or converts with [int()] to an integer of at least
    4. *)
Theorem reachable_footprint_clamped (c : Canvas) :
  reachable c →
  footprint_clamped c
  ∧ (is_pos_infinity (rect_width_px c)
     ∨ ∃ w, py_int (rect_width_px c) = Ok w ∧ 4 <= w)
  ∧ (is_pos_infinity (rect_height_px c)
     ∨ ∃ h, py_int (rect_height_px c) = Ok h ∧ 4 <= h).
Proof.
  intros Hreach. pose proof (reachable_footprint c Hreach) as Hinv.
  split; [done|]. destruct Hinv as [Hw Hh].
  split; by apply py_int_ge_4.
Qed.


(** X4: in every reachable canvas with a path of at least two points,
    [_emit_crop] never returns silently: it emits exactly one pixmap, or
    it raises (and then emits nothing). *)
Theorem reachable_crop_never_skips (c : Canvas) :
  reachable c → hasPath c = true →
  crop c ≠ Ok None
  ∧ ((∃ pix, emit_crop c = mkOutcome c [pix] None)
     ∨ (∃ e, emit_crop c = mkOutcome c [] (Some e))).
Proof.
  intros Hreach Hp.
  assert (crop c ≠ Ok None) as Hcrop.
  { apply crop_not_skipped_reachable;
      [by apply reachable_raster|by apply reachable_footprint|done]. }
  split; [done|].
  destruct (crop_outcome c Hcrop) as [(pix & Hemit & _)|Hraise]; eauto.
Qed.



End Reachable_facts.

(** *** Ticks, strokes and how the calls compose *)

Lemma point_in_image_same (c c' : Canvas) (q : QPoint) :
  image c' = image c → point_in_image c' q = point_in_image c q.
Proof. unfold point_in_image. by intros ->. Qed.

(** Moves while drawing: the positions inside the image are appended in
    order, the others dropped, everything but the path stays. *)
Lemma moves_append (c0 : Canvas) (moves : list QMouseEvent) (c : Canvas) :
  image c = image c0 → hasImage c0 = true → drawing c = true →
  let c' := foldl (λ c ev, mouseMoveEvent ev c) c moves in
  path_points c'
  = path_points c
    ++ (QPointF_of <$> List.filter (point_in_image c0) (pos <$> moves))
  ∧ image c' = image c ∧ image_qimage c' = image_qimage c
  ∧ drawing c' = true ∧ playing c' = playing c
  ∧ drone_index c' = drone_index c ∧ timer c' = timer c
  ∧ rect_width_px c' = rect_width_px c
  ∧ rect_height_px c' = rect_height_px c.
Proof.
  revert c. induction moves as [|ev moves IH]; intros c Himg Hi Hd.
  { cbn. rewrite app_nil_r. done. }
  cbn [foldl fmap list_fmap List.filter].
  assert (hasImage c = true) as Hic by (unfold hasImage in *; by rewrite Himg).
  assert (mouseMoveEvent ev c
          = if point_in_image c0 (pos ev)
            then set_path_points (path_points c ++ [QPointF_of (pos ev)]) c
            else c) as ->.
  { unfold mouseMoveEvent. rewrite Hd, Hic. cbn [negb orb].
    by rewrite (point_in_image_same c0 c). }
  destruct (point_in_image c0 (pos ev)) eqn:Hin.
  - destruct (IH (set_path_points (path_points c ++ [QPointF_of (pos ev)]) c))
      as (Hpath & Hrest); [done..|].
    cbn zeta. split; [|exact Hrest].
    rewrite Hpath. cbn. by rewrite <- app_assoc.
  - by apply IH.
Qed.

Section Composition.

Variable atan2 : float → float → float.
Variables cos sin : float → float.
Variable qt : QtEnv.

Local Abbreviation emit_crop := (emit_crop atan2 cos sin qt).
Local Abbreviation crop := (crop atan2 cos sin qt).
Local Abbreviation startAnimation := (startAnimation atan2 cos sin qt).
Local Abbreviation on_timer := (on_timer atan2 cos sin qt).
Local Abbreviation start_play := (start_play atan2 cos sin qt).
Local Abbreviation step := (step atan2 cos sin qt).
Local Abbreviation ticks := (ticks atan2 cos sin qt).

Lemma after_on_timer (c : Canvas) :
  hasPath c = true →
  after (on_timer c)
  = if drone_index c <? path_len c - 1
    then set_drone_index (drone_index c + 1) c
    else stopAnimation c.
Proof.
  intros Hp. open_on_timer. rewrite Hp. cbn [negb].
  destruct (drone_index c <? path_len c - 1); [|done].
  apply after_emit_crop.
Qed.

(** X5: on a path of [n >= 2] points, [k] ticks from an index
    [i <= n - 1] leave the path alone and the index at
    [min(i + k, n - 1)]; the playing flag and the timer are untouched
    for the first [n - 1 - i] ticks, and the tick after those clears the
    flag and halts the timer, for good. *)
Theorem ticks_run_to_end (c : Canvas) (n : Z) (k : nat) :
  path_len c = n → 2 <= n → drone_index c <= n - 1 →
  path_points (ticks k c) = path_points c
  ∧ drone_index (ticks k c) = Z.min (drone_index c + Z.of_nat k) (n - 1)
  ∧ (Z.of_nat k <= n - 1 - drone_index c →
     playing (ticks k c) = playing c ∧ timer (ticks k c) = timer c)
  ∧ (n - 1 - drone_index c < Z.of_nat k →
     playing (ticks k c) = false ∧ timer (ticks k c) = None).
Proof.
  intros Hn Hn2 Hidx. induction k as [|k (Hpath & Hi & Hrun & Hend)].
  { cbn. repeat split; try lia. }
  assert (ticks (S k) c = after (on_timer (ticks k c))) as -> by done.
  assert (path_len (ticks k c) = n) as Hlen
    by (unfold path_len in *; by rewrite Hpath).
  rewrite after_on_timer by (apply hasPath_len; lia).
  rewrite Hlen, Hi.
  destruct (Z.ltb_spec (Z.min (drone_index c + Z.of_nat k) (n - 1)) (n - 1))
    as [Hlt|Hge]; cbn.
  - destruct Hrun as [Hplay Htimer]; [lia|].
    repeat split; try done; try lia.
  - repeat split; try done; try lia.
Qed.

(** X6: a stroke, a left press inside the image followed by moves,
    replaces the path by the press position and the move positions that
    lie inside the image, in order (positions outside are dropped); it
    leaves the canvas drawing, not playing, at index 0 with the timer
    halted, and keeps the raster and the footprint. *)
Theorem stroke_path (press : QMouseEvent) (moves : list QMouseEvent)
    (c : Canvas) :
  hasImage c = true → button press = LeftButton →
  point_in_image c (pos press) = true →
  let c' := stroke press moves c in
  path_points c'
  = QPointF_of
    <$> (pos press :: List.filter (point_in_image c) (pos <$> moves))
  ∧ drawing c' = true ∧ playing c' = false ∧ drone_index c' = 0
  ∧ timer c' = None
  ∧ image c' = image c ∧ image_qimage c' = image_qimage c
  ∧ rect_width_px c' = rect_width_px c
  ∧ rect_height_px c' = rect_height_px c.
Proof.
  intros Hi Hb Hin. unfold stroke, mousePressEvent.
  rewrite Hi, Hb, Hin. cbn [negb is_left].
  match goal with |- context [foldl _ ?c1 moves] =>
    destruct (moves_append c moves c1)
      as (Hpath & Himg & Hq & Hd & Hpl & Hidx & Ht & Hw & Hh) end;
    [done..|].
  cbn zeta. rewrite Hpath, Himg, Hq, Hd, Hpl, Hidx, Ht, Hw, Hh. done.
Qed.

(** X7: no call reorders or removes points of the path: a call leaves
    the path as it is, or appends one position inside the image while
    drawing (a move), or starts it afresh from one position inside the
    image (a press), or empties it (a new raster). *)
Theorem path_only_grows (e : Event) (c : Canvas) :
  let c' := after (step e c) in
  path_points c' = path_points c
  ∨ (∃ ev, e = Move ev ∧ drawing c = true
           ∧ point_in_image c (pos ev) = true
           ∧ path_points c' = path_points c ++ [QPointF_of (pos ev)])
  ∨ (∃ ev, e = Press ev ∧ button ev = LeftButton
           ∧ point_in_image c (pos ev) = true
           ∧ path_points c' = [QPointF_of (pos ev)])
  ∨ (∃ pm, e = LoadImage pm ∧ path_points c' = []).
Proof.
  destruct e as [pm|w h|ms| |ev|ev|ev| |al rw rh zm fr];
    open_step; cbn [after returned].
  - right. right. right. by exists pm.
  - by left.
  - left. destruct (after_startAnimation atan2 cos sin qt ms c) as [Hno Hyes].
    destruct (hasImage c && hasPath c); [by apply Hyes|by rewrite Hno].
  - by left.
  - unfold mousePressEvent.
    destruct (hasImage c); [|by left]. cbn [negb].
    destruct (button ev) eqn:Hb; cbn [is_left]; try by left.
    destruct (point_in_image c (pos ev)) eqn:Hin; [|by left].
    right. right. left. by exists ev.
  - unfold mouseMoveEvent.
    destruct (drawing c) eqn:Hd; [|by left]. cbn [negb orb].
    destruct (hasImage c); [|by left]. cbn [negb].
    destruct (point_in_image c (pos ev)) eqn:Hin; [|by left].
    right. left. by exists ev.
  - left. unfold mouseReleaseEvent. by destruct (is_left (button ev)).
  - left. open_on_timer.
    destruct (hasPath c); [|done]. cbn [negb].
    destruct (drone_index c <? path_len c - 1); [|done].
    by rewrite after_emit_crop.
  - left. open_start_play.
    destruct (hasImage c) eqn:Hi; [|done]. cbn [negb].
    destruct (hasPath c) eqn:Hp; [|done]. cbn [negb].
    destruct (fr <=? 0)%float; [done|].
    destruct (py_int _) as [ms|err]; [|done].
    match goal with |- context [after (_ ?c1)] =>
      destruct (after_startAnimation atan2 cos sin qt ms c1) as [_ Hyes] end.
    destruct Hyes as (_ & _ & -> & _);
      [change (hasImage c && hasPath c = true); by rewrite Hi, Hp|done].
Qed.


(** The canvas [setImage] leaves: no path, index 0, both flags down. *)
Lemma step_idle (e : Event) (c : Canvas) :
  path_points c = [] → drone_index c = 0 →
  playing c = false → drawing c = false →
  not_press e = true →
  let o := step e c in
  (path_points (after o) = [] ∧ drone_index (after o) = 0
   ∧ playing (after o) = false ∧ drawing (after o) = false)
  ∧ emitted o = [] ∧ raised o = None
  ∧ (timer (after o) = timer c ∨ timer (after o) = None).
Proof.
  intros Hpath Hidx Hplay Hdraw Hev.
  assert (hasPath c = false) as Hp.
  { unfold hasPath, path_len. by rewrite Hpath. }
  destruct e as [pm|w h|ms| |ev|ev|ev| |al rw rh zm fr]; try done;
    open_step; cbn zeta.
  - cbn. repeat split; try done. by left.
  - cbn. repeat split; try done. by left.
  - open_startAnimation. rewrite Hp, orb_true_r. cbn. repeat split; try done.
    by left.
  - cbn. repeat split; try done. by right.
  - unfold mouseMoveEvent. rewrite Hdraw. cbn. repeat split; try done. by left.
  - unfold mouseReleaseEvent. destruct (is_left _); cbn; repeat split;
      try done; by left.
  - open_on_timer. rewrite Hp. cbn. repeat split; try done. by right.
  - open_start_play. rewrite Hp. destruct (hasImage c); cbn;
      repeat split; try done; by left.
Qed.

(** X9: loading a raster while the animation plays empties the path,
    puts the index at 0 and lowers both flags, but leaves the timer
    running and the footprint as it was.  From there on, through any
    calls other than a mouse press, path, index and flags stay so, no
    call emits or raises, the timer keeps its period or is halted, a
    tick halts it, and [startAnimation] and [_emit_crop] do nothing. *)
Theorem setImage_mid_animation (pixmap : QPixmap) (events : list Event)
    (c : Canvas) :
  let c1 := setImage pixmap c in
  (path_points c1 = [] ∧ drone_index c1 = 0
   ∧ playing c1 = false ∧ drawing c1 = false
   ∧ timer c1 = timer c
   ∧ rect_width_px c1 = rect_width_px c
   ∧ rect_height_px c1 = rect_height_px c)
  ∧ (forallb not_press events = true →
     let c2 := run atan2 cos sin qt events c1 in
     (path_points c2 = [] ∧ drone_index c2 = 0
      ∧ playing c2 = false ∧ drawing c2 = false)
     ∧ Forall (λ o, emitted o = [] ∧ raised o = None)
              (trace atan2 cos sin qt events c1)
     ∧ (timer c2 = timer c ∨ timer c2 = None)
     ∧ on_timer c2 = returned (stopAnimation c2)
     ∧ timer (after (on_timer c2)) = None
     ∧ (∀ ms, startAnimation ms c2 = returned c2)
     ∧ emit_crop c2 = returned c2).
Proof.
  cbn zeta. split; [done|].
  assert (∀ evs c1,
            path_points c1 = [] → drone_index c1 = 0 →
            playing c1 = false → drawing c1 = false →
            forallb not_press evs = true →
            let c2 := run atan2 cos sin qt evs c1 in
            (path_points c2 = [] ∧ drone_index c2 = 0
             ∧ playing c2 = false ∧ drawing c2 = false)
            ∧ Forall (λ o, emitted o = [] ∧ raised o = None)
                     (trace atan2 cos sin qt evs c1)
            ∧ (timer c2 = timer c1 ∨ timer c2 = None)) as Hrun.
  { induction evs as [|e evs IH]; intros c1 Hpath Hidx Hplay Hdraw Hevs.
    - cbn. repeat split; try done. by left.
    - cbn [forallb] in Hevs. apply andb_prop in Hevs as [He Hevs].
      destruct (step_idle e c1 Hpath Hidx Hplay Hdraw He)
        as ((Hp1 & Hi1 & Hpl1 & Hd1) & Hem & Hra & Ht).
      destruct (IH _ Hp1 Hi1 Hpl1 Hd1 Hevs) as (Hq & Hall & Ht2).
      cbn [trace]. change (run atan2 cos sin qt (e :: evs) c1)
        with (run atan2 cos sin qt evs (after (step e c1))).
      cbn zeta in *. split; [done|]. split; [by constructor|].
      destruct Ht2 as [-> | ->]; [done|by right]. }
  intros Hevs.
  destruct (Hrun events (setImage pixmap c)) as ((Hpath & Hq) & Hall & Ht);
    [done..|].
  cbn zeta in *. set (c2 := run atan2 cos sin qt events (setImage pixmap c)) in *.
  assert (hasPath c2 = false) as Hp.
  { unfold hasPath, path_len. by rewrite Hpath. }
  split; [done|]. split; [done|]. split; [done|].
  split; [open_on_timer; by rewrite Hp|].
  split; [open_on_timer; by rewrite Hp|].
  split.
  - intros ms. open_startAnimation. by rewrite Hp, orb_true_r.
  - open_emit_crop; open_crop. by rewrite Hp, orb_true_r.
Qed.

End Composition.

(** *** Nearest neighbours, frozen headings and the colours of a frame *)

Lemma round_half_even_near (n d : Z) :
  0 < d →
  2 * round_half_even n d * d - d <= 2 * n <= 2 * round_half_even n d * d + d.
Proof.
  intros Hd. unfold round_half_even.
  pose proof (Z.div_mod n d ltac:(lia)) as Hdiv.
  pose proof (Z.mod_pos_bound n d Hd) as Hmod.
  destruct (Z.compare_spec (2 * (n mod d)) d) as [Heq|Hlt|Hgt];
    [destruct (Z.even (n / d))| |]; nia.
Qed.

(** [round(f)] is an integer nearest to [f]: at most one half away. *)
Lemma py_round_near (f : float) (r : Z) :
  py_round f = Ok r →
  ∃ v, float_value f = Some v
       ∧ (inject_Z r - (1 # 2) <= v)%Q ∧ (v <= inject_Z r + (1 # 2))%Q.
Proof.
  unfold py_round, float_value.
  destruct (Prim2SF f) as [s|s| |s m e]; try done.
  - intros [= <-]. eexists. split; [done|]. by vm_compute.
  - destruct (Z.leb_spec 0 e) as [He|He]; intros [= <-].
    + eexists. split; [done|]. unfold Qle. cbn. lia.
    + eexists. split; [done|].
      assert (0 < 2 ^ (- e)) as Hd by (apply Z.pow_pos_nonneg; lia).
      pose proof (round_half_even_near (signed s m) _ Hd) as Hnear.
      unfold Qle. cbn. rewrite !Z2Pos.id by done. lia.
Qed.

(** Subtracting a finite double from itself gives a zero. *)
Lemma sub_self_is_zero (x : float) :
  finite x → (x - x =? 0)%float = true.
Proof.
  unfold finite, float_value. intros Hfin.
  rewrite FloatAxioms.eqb_spec, sub_spec. unfold SF64sub.
  change (Prim2SF 0) with (S754_zero false).
  destruct (Prim2SF x) as [[|]|s| |s m e].
  - done.
  - done.
  - by destruct Hfin.
  - by destruct Hfin.
  - cbn [SFsub]. by rewrite Z.sub_diag.
Qed.

Section Frames.

Variable atan2 : float → float → float.
Variables cos sin : float → float.
Variable qt : QtEnv.

Local Abbreviation emit_crop := (emit_crop atan2 cos sin qt).
Local Abbreviation heading_angle_deg := (heading_angle_deg atan2).

(** X11: sampling is to the nearest neighbour: the source index
    [(ix, iy)] of a destination pixel is within one half of the exact
    coordinates [(gx, gy)], which are finite whenever the index
    exists. *)
Theorem world_index_nearest (center : QPointF) (cos_t sin_t lx ly : float)
    (ix iy : Z) :
  world_index center cos_t sin_t lx ly = Ok (ix, iy) →
  ∃ vx vy,
    float_value (pf_x center + cos_t * lx - sin_t * ly)%float = Some vx
    ∧ float_value (pf_y center + sin_t * lx + cos_t * ly)%float = Some vy
    ∧ (inject_Z ix - (1 # 2) <= vx)%Q ∧ (vx <= inject_Z ix + (1 # 2))%Q
    ∧ (inject_Z iy - (1 # 2) <= vy)%Q ∧ (vy <= inject_Z iy + (1 # 2))%Q.
Proof.
  unfold world_index. intros Hidx.
  destruct (py_round (pf_x center + _ - _)%float) as [rx|] eqn:Hx; [|done].
  destruct (py_round (pf_y center + _ + _)%float) as [ry|] eqn:Hy; [|done].
  cbn in Hidx. injection Hidx as <- <-.
  destruct (py_round_near _ _ Hx) as (vx & Hvx & Hx1 & Hx2).
  destruct (py_round_near _ _ Hy) as (vy & Hvy & Hy1 & Hy2).
  by exists vx, vy.
Qed.

(** X12: a segment between two points with the same finite coordinates
    has heading 0.0, whatever [atan2] would say: at an index whose next
    point repeats it, and at the last index when it repeats the point
    before. *)
Theorem heading_duplicate_points (c : Canvas) (p1 p2 : QPointF) :
  2 <= path_len c →
  pf_x p1 = pf_x p2 → pf_y p1 = pf_y p2 →
  finite (pf_x p1) → finite (pf_y p1) →
  segment_heading atan2 p1 p2 = 0%float
  ∧ (∀ idx, 0 <= idx < path_len c - 1 →
       path_points c !! Z.to_nat idx = Some p1 →
       path_points c !! Z.to_nat (idx + 1) = Some p2 →
       heading_angle_deg c idx = Ok 0%float)
  ∧ (path_points c !! Z.to_nat (path_len c - 2) = Some p1 →
     path_points c !! Z.to_nat (path_len c - 1) = Some p2 →
     heading_angle_deg c (path_len c - 1) = Ok 0%float).
Proof.
  intros Hn Hx Hy Hfx Hfy.
  assert (segment_heading atan2 p1 p2 = 0%float) as Hzero.
  { unfold segment_heading. rewrite <- Hx, <- Hy.
    by rewrite (sub_self_is_zero _ Hfx), (sub_self_is_zero _ Hfy). }
  split; [done|]. split.
  - intros idx Hidx H1 H2.
    by rewrite (heading_forward atan2 c idx p1 p2), Hzero.
  - intros H1 H2. by rewrite (heading_backward atan2 c p1 p2), Hzero.
Qed.

(** X13: every pixel of a frame emitted at sizes Qt builds an image of
    is opaque black or the colour of a raster pixel; where no source
    index falls in the raster the frame is black all over, and where
    every source index falls in a raster of one colour the frame has
    that colour all over. *)
Theorem emit_crop_colours (c : Canvas) (src : QImage) (center : QPointF)
    (angle_deg : float) (w h : Z) :
  hasImage c = true → hasPath c = true → image_qimage c = Some src →
  py_getitem (path_points c) (clamp_index c) = Ok center →
  heading_angle_deg c (clamp_index c) = Ok angle_deg →
  py_int (rect_width_px c) = Ok w → py_int (rect_height_px c) = Ok h →
  2 <= w → 2 <= h → builds qt w h = true →
  let cos_t := cos (radians angle_deg) in
  let sin_t := sin (radians angle_deg) in
  indexable center cos_t sin_t w h →
  ∃ frame,
    emitted (emit_crop c) = [fromImage frame]
    ∧ (∀ x y, 0 <= x < w → 0 <= y < h →
         pixel frame x y = black
         ∨ ∃ ix iy, valid src ix iy = true
                    ∧ pixel frame x y = pixel src ix iy)
    ∧ ((∀ x y ixy, 0 <= x < w → 0 <= y < h →
          source_index center cos_t sin_t w h x y = Ok ixy →
          valid src ixy.1 ixy.2 = false) →
       ∀ x y, 0 <= x < w → 0 <= y < h → pixel frame x y = black)
    ∧ (∀ colour,
         (∀ ix iy, valid src ix iy = true → pixel src ix iy = colour) →
         (∀ x y ixy, 0 <= x < w → 0 <= y < h →
            source_index center cos_t sin_t w h x y = Ok ixy →
            valid src ixy.1 ixy.2 = true) →
         ∀ x y, 0 <= x < w → 0 <= y < h → pixel frame x y = colour).
Proof.
  intros Hi Hp Hq Hc Ha Hw Hh Hw2 Hh2 Hb cos_t sin_t Hidx.
  destruct (emit_crop_frame atan2 cos sin qt c src center angle_deg w h)
    as (frame & Hemit & Hf & Hpix); [done..|].
  exists frame. split; [by rewrite Hemit|].
  assert (∀ x y, 0 <= x < w → 0 <= y < h →
            ∃ ixy, source_index center cos_t sin_t w h x y = Ok ixy
                   ∧ pixel frame x y = sampled src ixy) as Hsample.
  { intros x y Hx Hy. destruct (Hidx x y Hx Hy) as [ixy Hixy].
    exists ixy. split; [done|]. rewrite Hpix by done.
    unfold target. fold cos_t sin_t. by rewrite Hixy. }
  split; [|split].
  - intros x y Hx Hy. destruct (Hsample x y Hx Hy) as (ixy & _ & ->).
    unfold sampled. destruct (valid src ixy.1 ixy.2) eqn:Hv; [|by left].
    right. by exists ixy.1, ixy.2.
  - intros Hout x y Hx Hy. destruct (Hsample x y Hx Hy) as (ixy & Hixy & ->).
    unfold sampled. by rewrite (Hout x y ixy).
  - intros colour Hsolid Hin x y Hx Hy.
    destruct (Hsample x y Hx Hy) as (ixy & Hixy & ->).
    pose proof (Hin x y ixy Hx Hy Hixy) as Hv.
    unfold sampled. rewrite Hv. by apply Hsolid.
Qed.

(** X14: with a path of at least two points, [paintEvent] draws the
    drone and its rectangle last, at the point and heading of the
    clamped index, and those are the centre and heading a frame emitted
    from the same canvas, at sizes Qt builds an image of, is sampled
    at. *)
Theorem paint_and_sample_same_pose (c : Canvas) :
  hasPath c = true →
  ∃ p a ops,
    paintEvent atan2 c
    = Ok (ops ++ [DrawDroneAndRect p a (rect_width_px c) (rect_height_px c)])
    ∧ path_points c !! Z.to_nat (clamp_index c) = Some p
    ∧ heading_angle_deg c (clamp_index c) = Ok a
    ∧ ∀ src w h,
        hasImage c = true → image_qimage c = Some src →
        py_int (rect_width_px c) = Ok w →
        py_int (rect_height_px c) = Ok h →
        2 <= w → 2 <= h → builds qt w h = true →
        indexable p (cos (radians a)) (sin (radians a)) w h →
        ∃ frame,
          emit_crop c = mkOutcome c [fromImage frame] None
          ∧ ∀ x y, 0 <= x < w → 0 <= y < h →
              pixel frame x y
              = target src p (cos (radians a)) (sin (radians a)) w h x y.
Proof.
  intros Hp. pose proof Hp as Hn. apply hasPath_len in Hn.
  destruct (pose_defined atan2 c) as (p & a & Hc & Hl & Ha); [lia|].
  destruct (py_getitem_lookup (path_points c) 0) as (p0 & H0 & _);
    [unfold path_len in *; lia|].
  exists p, a. eexists. split; [|split; [done|split; [done|]]].
  - unfold paintEvent. rewrite Hp. unfold hasPath in Hp. rewrite Hp.
    rewrite H0, Hc, Ha. cbn [bind]. by rewrite app_assoc.
  - intros src w h Hi Hq Hw Hh Hw2 Hh2 Hb Hidx.
    destruct (emit_crop_frame atan2 cos sin qt c src p a w h)
      as (frame & Hemit & _ & Hpix); [done..|].
    by exists frame.
Qed.

End Frames.

(** ** The properties at work on the scene *)

Module Examples.

Import Scene.

Local Abbreviation emit_crop_under := (emit_crop atan2 cos sin).
Local Abbreviation on_timer_under := (on_timer atan2 cos sin).
Local Abbreviation run_under := (run atan2 cos sin).
Local Abbreviation emit_crop := (emit_crop atan2 cos sin qt).
Local Abbreviation startAnimation := (startAnimation atan2 cos sin qt).
Local Abbreviation on_timer := (on_timer atan2 cos sin qt).
Local Abbreviation start_play := (start_play atan2 cos sin qt).
Local Abbreviation run := (run atan2 cos sin qt).

Lemma emit_crop_samples_witness :
  ∃ frame,
    emit_crop running = mkOutcome running [fromImage frame] None
    ∧ is_frame 4 4 frame
    ∧ pixel frame 0 0 = black
    ∧ pixel frame 3 1 = pixel raster 2 1.
Proof.
  destruct (emit_crop_samples atan2 cos sin qt running raster
              (mkQPointF 1 2) 0 4 4)
    as (frame & Hemit & Hframe & Hpix);
    [vm_compute; reflexivity..|lia|lia|vm_compute; reflexivity| |].
  - apply indexable_b_spec. vm_compute. reflexivity.
  - exists frame. split; [exact Hemit|]. split; [exact Hframe|]. split.
    + apply (Hpix 0 0 (-2)%float (-2)%float (-1) 0);
        [lia|lia|vm_compute; reflexivity..|].
      vm_compute. intros [[Hneg _] _]. apply Hneg. reflexivity.
    + apply (Hpix 3 1 1%float (-1)%float 2 1);
        [lia|lia|vm_compute; reflexivity..|].
      vm_compute. repeat split; discriminate.
Defined.

(** C1 as stated fails where Qt builds no image of the footprint's
    sizes.  A width of 2^31 does not fit the C [int] the constructor
    takes: the call raises and emits nothing.  A width of 2^100 raises
    under a binding that does not check for overflow, too.  And where
    the memory is short the image is null, and what is emitted is a
    null pixmap, not a 5 by 5 frame. *)
Lemma footprint_not_built :
  (hasImage wide = true ∧ hasPath wide = true
   ∧ py_int (rect_width_px wide) = Ok (2 ^ 31)
   ∧ py_int (rect_height_px wide) = Ok 4
   ∧ emit_crop wide = mkOutcome wide [] (Some OverflowError))
  ∧ (py_int (rect_width_px huge) = Ok (2 ^ 100)
     ∧ py_int (rect_height_px huge) = Ok (2 ^ 100)
     ∧ emit_crop huge = mkOutcome huge [] (Some OverflowError)
     ∧ emit_crop_under qt_unchecked huge
       = mkOutcome huge [] (Some OverflowError))
  ∧ (py_int (rect_width_px five) = Ok 5
     ∧ py_int (rect_height_px five) = Ok 5
     ∧ emit_crop_under qt_cramped five
       = mkOutcome five [fromImage null_image] None
     ∧ ¬ is_frame 5 5 null_image).
Proof.
  vm_compute. repeat split; try reflexivity.
  intros (Hw & _). discriminate.
Qed.



Lemma start_play_interval_witness :
  start_play 1 5 5 1 1.5 loaded
  = startAnimation 666 (setRectangleSizePixels 5 5 loaded).
Proof.
  etransitivity;
    [apply (start_play_interval atan2 cos sin qt 1 5 5 1 1.5 loaded
              (match float_value (1000 / 1.5)%float with
               | Some q => q
               | None => 0%Q
               end)); vm_compute; reflexivity|].
  vm_compute. reflexivity.
Defined.

(** C3 as stated fails at 1.5 Hz: the quotient 666.67 rounds to 667,
    the interval handed to the driver is 666.  And where the quotient
    is no finite number, as at 2^-1070 Hz, [int()] raises and the
    driver is not started. *)
Lemma start_play_interval_not_rounded :
  ((1.5 <=? 0)%float = false
   ∧ py_int (1000 / 1.5)%float = Ok 666
   ∧ py_round (1000 / 1.5)%float = Ok 667
   ∧ start_play 1 5 5 1 1.5 loaded
     = startAnimation 666 (setRectangleSizePixels 5 5 loaded)
   ∧ timer (after (start_play 1 5 5 1 1.5 loaded)) = Some 666)
  ∧ ((0x1p-1070 <=? 0)%float = false
     ∧ (1000 / 0x1p-1070)%float = infinity
     ∧ start_play 1 5 5 1 0x1p-1070 loaded
       = mkOutcome (setRectangleSizePixels 5 5 loaded) []
                   (Some OverflowError)).
Proof. vm_compute. repeat split; reflexivity. Qed.

(** C4 as stated fails at 2.5: with the centre at (5, 5), heading 0
    and a 5 by 5 footprint, destination pixel (0, 0) has
    [gx = gy = 2.5], which the code rounds to 2, not to 3. *)
Lemma round_half_not_away :
  local_offset 0 5 = Ok (-2.5)%float
  ∧ (5 + 1 * -2.5 - 0 * -2.5 = 2.5)%float
  ∧ is_half 2.5 2
  ∧ source_index (mkQPointF 5 5) 1 0 5 5 0 0 = Ok (2, 2)
  ∧ half_away 2 = 3.
Proof.
  repeat split; try (vm_compute; reflexivity).
  eexists. split; [vm_compute; reflexivity|]. reflexivity.
Qed.

Lemma heading_last_segment_witness :
  heading_angle_deg atan2 loaded 2 = heading_angle_deg atan2 loaded 1
  ∧ heading_angle_deg atan2 loaded 2 = Ok 0%float.
Proof.
  destruct (heading_last_segment atan2 loaded 3
              (mkQPointF 3 2) (mkQPointF 5 2)) as [Hsame Hseg];
    [reflexivity|lia|reflexivity|reflexivity| |].
  - intros Heq. apply (f_equal (λ p, (pf_x p =? 3)%float)) in Heq.
    vm_compute in Heq. discriminate.
  - split; [exact Hsame|].
    transitivity (Ok (segment_heading atan2 (mkQPointF 3 2) (mkQPointF 5 2)));
      [exact Hseg|vm_compute; reflexivity].
Defined.

Lemma emit_crop_degenerate_witness :
  emit_crop narrow = returned narrow ∧ emit_crop sliver = returned sliver.
Proof.
  split.
  - destruct (emit_crop_degenerate atan2 cos sin qt narrow) as [Hskip _];
      [eexists; vm_compute; reflexivity..| |exact Hskip].
    left. right. exists 1. split; [vm_compute; reflexivity|lia].
  - destruct (emit_crop_degenerate atan2 cos sin qt sliver) as [Hskip _];
      [eexists; vm_compute; reflexivity..| |exact Hskip].
    left. left. exists 1. split; [vm_compute; reflexivity|lia].
Defined.

(** C7 as stated fails where the other size is no finite number: the
    width, 1.25, comes out as 1 by [int()] and by rounding alike, but
    [int()] of the height raises before the sizes are compared. *)
Lemma degenerate_size_raises :
  py_int 1.25 = Ok 1 ∧ py_round 1.25 = Ok 1
  ∧ rect_width_px narrow_endless = 1.25%float
  ∧ rect_width_px narrow_nan = 1.25%float
  ∧ emit_crop narrow_endless
    = mkOutcome narrow_endless [] (Some OverflowError)
  ∧ emit_crop narrow_nan = mkOutcome narrow_nan [] (Some ValueError).
Proof. vm_compute. repeat split; reflexivity. Qed.



Lemma world_index_half_even_witness :
  world_index (mkQPointF 5 5) 1 0 (-2.5) (-2.5) = Ok (2, 2)
  ∧ world_index (mkQPointF 5 5) 1 0 (-1.5) (-0.5) = Ok (4, 4).
Proof.
  split.
  - destruct (world_index_half_even (mkQPointF 5 5) 1 0 (-2.5) (-2.5) 2 2)
      as (_ & _ & Hboth).
    apply Hboth; (eexists; split; [vm_compute; reflexivity|reflexivity]).
  - destruct (world_index_half_even (mkQPointF 5 5) 1 0 (-1.5) (-0.5) 3 4)
      as (_ & _ & Hboth).
    apply Hboth; (eexists; split; [vm_compute; reflexivity|reflexivity]).
Defined.

Lemma playing_index_in_path_witness :
  let c := run session init in
  playing c = true ∧ drone_index c = 1 ∧ path_len c = 3
  ∧ 0 <= drone_index c < path_len c.
Proof.
  intros c.
  assert (playing c = true) as Hplay by (vm_compute; reflexivity).
  split; [exact Hplay|].
  split; [vm_compute; reflexivity|]. split; [vm_compute; reflexivity|].
  destruct (playing_index_in_path atan2 cos sin qt) as [Hinv _].
  apply Hinv; [|exact Hplay].
  apply reachable_run, reachable_init.
Defined.

Lemma path_access_in_bounds_witness :
  clamp_index (set_drone_index 99 loaded) = 2
  ∧ clamp_index (set_drone_index (-7) loaded) = 0
  ∧ ∃ p, py_getitem path (clamp_index (set_drone_index 99 loaded)) = Ok p.
Proof.
  split; [reflexivity|]. split; [reflexivity|].
  destruct (path_access_in_bounds atan2 cos sin qt (set_drone_index 99 loaded))
    as [Hread _].
  destruct Hread as (_ & p & a & Hp & _); [vm_compute; discriminate|].
  exists p. exact Hp.
Defined.

Lemma mouseReleaseEvent_frame_witness :
  drawing (mouseReleaseEvent (mkMouseEvent LeftButton (mkQPoint 5 2))
             (set_drawing true loaded)) = false
  ∧ mouseReleaseEvent (mkMouseEvent RightButton (mkQPoint 5 2))
      (set_drawing true loaded) = set_drawing true loaded.
Proof.
  split.
  - destruct (mouseReleaseEvent_frame
                (mkMouseEvent LeftButton (mkQPoint 5 2))
                (set_drawing true loaded)) as [Hleft _].
    destruct Hleft as [_ Hflag]; [reflexivity|exact Hflag].
  - destruct (mouseReleaseEvent_frame
                (mkMouseEvent RightButton (mkQPoint 5 2))
                (set_drawing true loaded)) as (_ & Hother & _).
    apply Hother. discriminate.
Defined.

End Examples.


(** ** The further properties at work on the scene *)

Module Scenarios.

Import Scene.

(** The scene's path with its first point repeated. *)
Definition stuttering : Canvas :=
  set_path_points [mkQPointF 1 2; mkQPointF 1 2; mkQPointF 3 2] loaded.

(** The canvas the session ends in. *)
Definition played : Canvas := run atan2 cos sin qt session init.

Lemma reachable_played : reachable atan2 cos sin qt played.
Proof. apply reachable_run, reachable_init. Qed.

Lemma reachable_raster_holds_path_witness :
  ∃ pm, image played = Some pm ∧ image_qimage played = Some (toImage pm)
        ∧ 0 < pm_width pm ∧ 0 < pm_height pm.
Proof.
  destruct (reachable_raster_holds_path atan2 cos sin qt played reachable_played)
    as [_ Hraster].
  apply Hraster. vm_compute. discriminate.
Defined.

Lemma reachable_footprint_clamped_witness :
  footprint_clamped played.
Proof.
  destruct (reachable_footprint_clamped atan2 cos sin qt played reachable_played)
    as [Hclamped _].
  exact Hclamped.
Defined.


Lemma reachable_crop_never_skips_witness :
  crop atan2 cos sin qt played ≠ Ok None.
Proof.
  destruct (reachable_crop_never_skips atan2 cos sin qt played reachable_played)
    as [Hcrop _]; [vm_compute; reflexivity|exact Hcrop].
Defined.

Lemma ticks_run_to_end_witness :
  drone_index (ticks atan2 cos sin qt 1 running) = 1
  ∧ drone_index (ticks atan2 cos sin qt 5 running) = 2
  ∧ playing (ticks atan2 cos sin qt 5 running) = false
  ∧ timer (ticks atan2 cos sin qt 5 running) = None.
Proof.
  destruct (ticks_run_to_end atan2 cos sin qt running 3 1)
    as (_ & Hone & _); [reflexivity|lia|vm_compute; discriminate|].
  destruct (ticks_run_to_end atan2 cos sin qt running 3 5)
    as (_ & Hfive & _ & Hend); [reflexivity|lia|vm_compute; discriminate|].
  destruct Hend as [Hplay Htimer]; [vm_compute; reflexivity|].
  split; [exact Hone|]. split; [exact Hfive|]. split; [exact Hplay|exact Htimer].
Defined.

Lemma stroke_path_witness :
  path_points
    (stroke (mkMouseEvent LeftButton (mkQPoint 1 2))
       [mkMouseEvent NoButton (mkQPoint 3 2);
        mkMouseEvent NoButton (mkQPoint 9 2);
        mkMouseEvent NoButton (mkQPoint 5 2)] loaded)
  = [mkQPointF 1 2; mkQPointF 3 2; mkQPointF 5 2].
Proof.
  destruct (stroke_path (mkMouseEvent LeftButton (mkQPoint 1 2))
              [mkMouseEvent NoButton (mkQPoint 3 2);
               mkMouseEvent NoButton (mkQPoint 9 2);
               mkMouseEvent NoButton (mkQPoint 5 2)] loaded)
    as [Hpath _]; [reflexivity..|].
  etransitivity; [exact Hpath|]. vm_compute. reflexivity.
Defined.


Lemma world_index_nearest_witness :
  ∃ vx vy,
    float_value (1 + 1 * 0.25 - 0 * 0.75)%float = Some vx
    ∧ float_value (2 + 0 * 0.25 + 1 * 0.75)%float = Some vy
    ∧ (inject_Z 1 - (1 # 2) <= vx)%Q ∧ (vx <= inject_Z 1 + (1 # 2))%Q
    ∧ (inject_Z 3 - (1 # 2) <= vy)%Q ∧ (vy <= inject_Z 3 + (1 # 2))%Q.
Proof.
  apply (world_index_nearest (mkQPointF 1 2) 1 0 0.25 0.75 1 3).
  vm_compute. reflexivity.
Defined.

Lemma heading_duplicate_points_witness :
  heading_angle_deg atan2 stuttering 0 = Ok 0%float.
Proof.
  destruct (heading_duplicate_points atan2 stuttering
              (mkQPointF 1 2) (mkQPointF 1 2)) as (_ & Hforward & _);
    [vm_compute; discriminate|reflexivity|reflexivity
    |eexists; vm_compute; reflexivity|eexists; vm_compute; reflexivity|].
  apply Hforward; [vm_compute; split; [discriminate|reflexivity]
                  |reflexivity|reflexivity].
Defined.

Lemma emit_crop_colours_witness :
  ∃ frame,
    emitted (emit_crop atan2 cos sin qt running) = [fromImage frame]
    ∧ (pixel frame 0 0 = black
       ∨ ∃ ix iy, valid raster ix iy = true
                  ∧ pixel frame 0 0 = pixel raster ix iy).
Proof.
  destruct (emit_crop_colours atan2 cos sin qt running raster
              (mkQPointF 1 2) 0 4 4)
    as (frame & Hemit & Hcolour & _);
    [vm_compute; reflexivity..|lia|lia|vm_compute; reflexivity| |].
  - apply indexable_b_spec. vm_compute. reflexivity.
  - exists frame. split; [exact Hemit|]. apply Hcolour; lia.
Defined.

Lemma paint_and_sample_same_pose_witness :
  ∃ p a ops frame,
    paintEvent atan2 running
    = Ok (ops ++ [DrawDroneAndRect p a 4 4])
    ∧ path_points running !! 0%nat = Some p
    ∧ emit_crop atan2 cos sin qt running
      = mkOutcome running [fromImage frame] None
    ∧ pixel frame 3 1
      = target raster p (cos (radians a)) (sin (radians a)) 4 4 3 1.
Proof.
  destruct (paint_and_sample_same_pose atan2 cos sin qt running)
    as (p & a & ops & Hpaint & Hpoint & Hangle & Hsample); [reflexivity|].
  vm_compute in Hpoint. injection Hpoint as Hpoint.
  vm_compute in Hangle. injection Hangle as Hangle. subst p a.
  destruct (Hsample raster 4 4) as (frame & Hemit & Hpix);
    [vm_compute; reflexivity..|lia|lia|vm_compute; reflexivity| |].
  - apply indexable_b_spec. vm_compute. reflexivity.
  - eexists _, _, ops, frame. split; [exact Hpaint|].
    split; [reflexivity|]. split; [exact Hemit|]. apply Hpix; lia.
Defined.

Lemma setImage_mid_animation_witness :
  let events := [Move (mkMouseEvent LeftButton (mkQPoint 3 2));
                 Start 500; Play 1 5 5 1 2; SetRectangleSize 9 9] in
  let c2 := run atan2 cos sin qt events (setImage (fromImage raster) played) in
  timer (setImage (fromImage raster) played) = timer played
  ∧ path_points c2 = []
  ∧ timer (after (on_timer atan2 cos sin qt c2)) = None.
Proof.
  intros events c2.
  destruct (setImage_mid_animation atan2 cos sin qt (fromImage raster)
              events played) as ((_ & _ & _ & _ & Htimer & _) & Hafter).
  destruct Hafter as ((Hpath & _) & _ & _ & _ & Hhalt & _); [reflexivity|].
  split; [exact Htimer|]. split; [exact Hpath|exact Hhalt].
Defined.

End Scenarios.
